(** * Metric synchronisation across a process group

  A shallow embedding of [torcheval/metrics/toolkit.py] (the object-level
  synchronisation of metrics with [dist.all_gather_object]) and of the
  state-tree synchronisation protocol exercised by
  [tests/metrics/test_synclib.py].

  Every rank runs the same Python function on its own data; the ranks
  meet only at collective calls.  A rank's run is therefore a tree of
  collective calls ([Collective.coll]), and a process group is the list of
  its ranks' trees, run in lock-step ([Collective.run_world]). *)

From stdpp Require Import base option list strings pretty.
From Stdlib Require Import ZArith Lia.

Set Warnings "-register-all".

Set Default Proof Using "Type".

(* ================================================================== *)
(** * Collective calls *)
(* ================================================================== *)

Module Collective.

(** The collectives of [torch.distributed] used here: [all_gather_object]
  (pickled Python objects) and [all_gather] (tensors, each received in a
  buffer sized beforehand: a rank is in the same collective as another
  only if their buffers have one [size]). *)
Inductive primitive := AllGatherObject | AllGatherFixed (size : nat).

#[global] Instance primitive_eq_dec : EqDecision primitive.
Proof. solve_decision. Defined.

Section Coll.
Context {P : Type}.

(** One rank's run: it returns, or it contributes [x] to a collective
    and resumes with the rank-ordered list of all contributions. *)
Inductive coll (A : Type) : Type :=
| Ret (a : A)
| Gather (c : primitive) (x : P) (k : list P → coll A).
Arguments Ret {A} a.
Arguments Gather {A} c x k.

Fixpoint cbind {A B} (m : coll A) (f : A → coll B) : coll B :=
  match m with
  | Ret a => f a
  | Gather c x k => Gather c x (λ xs, cbind (k xs) f)
  end.

(** Number of collective calls a rank issues when every collective
    answers with [answer]. *)
Fixpoint calls_issued {A} (answer : list P) (m : coll A) : nat :=
  match m with
  | Ret _ => 0
  | Gather _ _ k => S (calls_issued answer (k answer))
  end.

(** One rank's run when its successive collectives are answered by
    [answers]: the result, and the answers it did not consume. *)
Fixpoint feed {A} (answers : list (list P)) (m : coll A) {struct m}
  : option (A * list (list P)) :=
  match m with
  | Ret a => Some (a, answers)
  | Gather _ _ k =>
      match answers with
      | [] => None
      | xs :: answers' => feed answers' (k xs)
      end
  end.

Definition finished {A} (p : coll A) : option A :=
  match p with Ret a => Some a | Gather _ _ _ => None end.

Definition pending {A} (c : primitive) (p : coll A)
  : option (P * (list P → coll A)) :=
  match p with
  | Gather c' x k => if decide (c = c') then Some (x, k) else None
  | Ret _ => None
  end.

(** Lock-step run of rank 0 ([p]) and ranks 1.. ([ps]).  All ranks must
    be at the same collective, or all must have returned; anything else
    is a hang ([None]). *)
Fixpoint run {A} (p : coll A) (ps : list (coll A)) : option (list A) :=
  match p with
  | Ret a => rs ← mapM finished ps; Some (a :: rs)
  | Gather c x k =>
      match mapM (pending c) ps with
      | Some xks =>
          let xs := x :: (fst <$> xks) in
          run (k xs) ((λ xk, snd xk xs) <$> xks)
      | None => None
      end
  end.

Definition run_world {A} (w : list (coll A)) : option (list A) :=
  match w with
  | [] => Some []
  | p :: ps => run p ps
  end.

End Coll.

Arguments coll : clear implicits.
Arguments Ret {P A} a.
Arguments Gather {P A} c x k.

End Collective.

(* ================================================================== *)
(** * [torcheval/metrics/toolkit.py] *)
(* ================================================================== *)

Module Toolkit.
Import Collective.

(** [torch.device], as far as placement goes. *)
Inductive device_t := Cpu | Cuda (index : nat).

(** The [Metric] interface, as the toolkit uses it.  A metric object owns
    its state ([MState]).  [_prepare_for_merge_state], [to] and
    [merge_state] act on their receiver in place ([to_device] relies on it
    for [to]) and the last two return it, so each method is given by what
    it makes of the receiver's state; [merge_state] reads the states of the
    metrics it is given. *)
Class MetricClass := {
  MState : Type;
  device_of : MState → device_t;
  on_prepare_for_merge_state : MState → MState;
  on_to : MState → device_t → MState;
  on_merge_state : MState → list MState → MState;
}.

Section WithMetric.
Context `{MC : MetricClass}.

(** ** Python objects

    The object universe is that of the toolkit's signatures: metrics,
    string-keyed mappings of metrics (a [dict], or a read-only
    [Mapping]), and lists of metrics.  Objects live in a store and are
    named by their address, so that "the same object" and "a copy" are
    different things. *)
Definition loc := nat.

Inductive obj :=
| OMetric (s : MState)
| OMapping (mutable : bool) (items : list (string * loc))
| OList (items : list loc).

Inductive pyval := VNone | VRef (l : loc).

(** What [pickle] makes of a metric or of a mapping of metrics. *)
Inductive pickled :=
| PkMetric (s : MState)
| PkMapping (mutable : bool) (items : list (string * MState)).

Inductive exn :=
| RuntimeError (msg : string)
| AttributeError (msg : string)
| KeyError (key : string)
| TypeError (msg : string)
| IndexError (msg : string).

Inductive log_record := LogWarning (msg : string).

Record state := State { heap : list obj; log : list log_record }.

(** A rank's computation: it threads the store and the log, may raise,
    and may take part in collectives. *)
Definition M (A : Type) : Type := state → coll pickled (state * (exn + A)).

Definition ret {A} (a : A) : M A := λ st, Ret (st, inr a).
Definition raise {A} (e : exn) : M A := λ st, Ret (st, inl e).
Definition resume {A B} (f : A → M B) (sr : state * (exn + A))
  : coll pickled (state * (exn + B)) :=
  match sr with
  | (st, inl e) => Ret (st, inl e)
  | (st, inr a) => f a st
  end.
Definition bind {A B} (m : M A) (f : A → M B) : M B :=
  λ st, cbind (m st) (resume f).

Notation "'let!' x := m 'in' k" := (bind m (λ x, k))
  (at level 10, x name, m at level 100, k at level 200, only parsing).
Notation "'let!' ' p := m 'in' k" := (bind m (fun p => k))
  (at level 10, p strict pattern, m at level 100, k at level 200,
   only parsing).
Notation "'do!' m 'in' k" := (bind m (λ _, k))
  (at level 10, m at level 100, k at level 200, only parsing).

Fixpoint for_list {A B} (f : A → M B) (l : list A) : M (list B) :=
  match l with
  | [] => ret []
  | x :: l' => let! y := f x in let! ys := for_list f l' in ret (y :: ys)
  end.

Definition deref (h : list obj) (v : pyval) : option obj :=
  match v with VNone => None | VRef l => h !! l end.

Definition lookup_obj (v : pyval) : M (option obj) :=
  λ st, Ret (st, inr (deref (heap st) v)).
Definition alloc (o : obj) : M loc :=
  λ st, Ret (State (heap st ++ [o]) (log st), inr (length (heap st))).
Definition store (l : loc) (o : obj) : M unit :=
  λ st, Ret (State (<[l := o]> (heap st)) (log st), inr tt).
Definition warning (msg : string) : M unit :=
  λ st, Ret (State (heap st) (log st ++ [LogWarning msg]), inr tt).
Definition gather (x : pickled) : M (list pickled) :=
  λ st, Gather AllGatherObject x (λ xs, Ret (st, inr xs)).

Definition type_name (o : option obj) : string :=
  match o with
  | None => "NoneType"
  | Some (OMetric _) => "Metric"
  | Some (OMapping true _) => "dict"
  | Some (OMapping false _) => "Mapping"
  | Some (OList _) => "list"
  end.

Definition no_attribute (o : option obj) (attr : string) : exn :=
  AttributeError
    ("'" +:+ type_name o +:+ "' object has no attribute '" +:+ attr +:+ "'").

(** ** The methods of a metric object *)

(** [obj.attr] for a method or property every [Metric] has. *)
Definition metric_attr (v : pyval) (attr : string) : M (loc * MState) :=
  let! o := lookup_obj v in
  match v, o with
  | VRef l, Some (OMetric s) => ret (l, s)
  | _, _ => raise (no_attribute o attr)
  end.

Definition _prepare_for_merge_state (v : pyval) : M unit :=
  let! '(l, s) := metric_attr v "_prepare_for_merge_state" in
  store l (OMetric (on_prepare_for_merge_state s)).

Definition device (v : pyval) : M device_t :=
  let! '(_, s) := metric_attr v "device" in ret (device_of s).

Definition to (v : pyval) (d : device_t) : M pyval :=
  let! '(l, s) := metric_attr v "to" in
  do! store l (OMetric (on_to s d)) in
  ret v.

(** [merge_state] reads the state of every metric it is given; an object
    that is no metric fails it at the first attribute it asks for. *)
Definition merge_state (v : pyval) (metrics : list pyval) : M pyval :=
  let! '(l, s) := metric_attr v "merge_state" in
  let! others := for_list (λ m, let! '(_, s') := metric_attr m "state_dict" in
                                ret s') metrics in
  do! store l (OMetric (on_merge_state s others)) in
  ret v.

(** ** Pickling, and [deepcopy]

    A pickle holds the state of a metric, or the keys of a mapping with
    the states of its metrics: what [_sync_metric_object] has left to ship
    once every [_prepare_for_merge_state] call has gone through.
    [deepcopy] rebuilds an object from its pickle. *)

Definition pickle_item (h : list obj) (kl : string * loc)
  : option (string * MState) :=
  match h !! kl.2 with
  | Some (OMetric s) => Some (kl.1, s)
  | _ => None
  end.

Definition pickle (h : list obj) (v : pyval) : option pickled :=
  match deref h v with
  | Some (OMetric s) => Some (PkMetric s)
  | Some (OMapping mutable items) =>
      PkMapping mutable <$> mapM (pickle_item h) items
  | _ => None
  end.

Definition dumps (v : pyval) : M pickled :=
  λ st, match pickle (heap st) v with
        | Some p => Ret (st, inr p)
        | None => Ret (st, inl (TypeError "cannot pickle object"))
        end.

Definition loads (p : pickled) : M pyval :=
  match p with
  | PkMetric s => let! l := alloc (OMetric s) in ret (VRef l)
  | PkMapping mutable items =>
      let! items' := for_list (λ ks, let! l := alloc (OMetric ks.2) in
                                     ret (ks.1, l)) items in
      let! l := alloc (OMapping mutable items') in
      ret (VRef l)
  end.

Definition deepcopy (v : pyval) : M pyval :=
  match v with
  | VNone => ret VNone
  | VRef _ => let! p := dumps v in loads p
  end.

(** [dist.all_gather_object(object_list, obj, group)]: slot [i] of
    [object_list] receives rank [i]'s object, unpickled. *)
Definition receive (object_list : list pyval) (xs : list pickled)
  : M (list pyval) :=
  let! vs := for_list loads (take (length object_list) xs) in
  ret (vs ++ drop (length vs) object_list).

Definition all_gather_object (object_list : list pyval) (v : pyval)
  : M (list pyval) :=
  let! p := dumps v in
  let! xs := gather p in
  receive object_list xs.

(** ** Subscripts *)

Fixpoint assoc (key : string) (items : list (string * loc)) : option loc :=
  match items with
  | [] => None
  | (k, l) :: items' => if decide (k = key) then Some l else assoc key items'
  end.

Fixpoint assoc_set (key : string) (l : loc) (items : list (string * loc))
  : list (string * loc) :=
  match items with
  | [] => [(key, l)]
  | (k, l') :: items' =>
      if decide (k = key) then (k, l) :: items'
      else (k, l') :: assoc_set key l items'
  end.

Definition index {A} (l : list A) (i : nat) : M A :=
  match l !! i with
  | Some a => ret a
  | None => raise (IndexError "list index out of range")
  end.

Definition getitem (v : pyval) (key : string) : M pyval :=
  let! o := lookup_obj v in
  match o with
  | Some (OMapping _ items) =>
      match assoc key items with
      | Some l => ret (VRef l)
      | None => raise (KeyError key)
      end
  | _ => raise (TypeError ("'" +:+ type_name o
                           +:+ "' object is not subscriptable"))
  end.

Definition setitem (d : loc) (key : string) (v : pyval) : M unit :=
  let! o := lookup_obj (VRef d) in
  match o, v with
  | Some (OMapping true items), VRef l =>
      store d (OMapping true (assoc_set key l items))
  | _, _ => raise (TypeError ("'" +:+ type_name o
                              +:+ "' object does not support item assignment"))
  end.

(** ** The toolkit *)

(** In [clone_metric(x).to(y.device).merge_state(zs)] Python looks [to] up
    on the clone before it evaluates [y.device]; the [metric_attr c "to"]
    steps below keep that order of failures. *)

Definition clone_metric (metric : pyval) : M pyval := deepcopy metric.

Definition world_size_one_msg : string :=
  "World size is 1, and metric(s) not synced. returning the input metric(s).".

Definition not_in_group_msg : string :=
  "The current process is not part of the process group".

Definition _validate_rank_and_world_size (world_size : Z) : M unit :=
  do! (if (world_size =? 1)%Z then warning world_size_one_msg
       else if (world_size =? -1)%Z then raise (RuntimeError not_in_group_msg)
       else ret tt) in
  if (world_size <? 1)%Z then
    raise (RuntimeError ("Unexpected world_size " +:+ pretty world_size
                         +:+ " is seen when syncing metrics!"))
  else ret tt.

Definition _sync_metric_object (metric_data : pyval) (world_size : Z)
  : M (list pyval) :=
  let! o := lookup_obj metric_data in
  do! match o with
      | Some (OMetric _) => _prepare_for_merge_state metric_data
      | Some (OMapping _ items) =>
          do! for_list (λ m, _prepare_for_merge_state (VRef m)) (items.*2) in
          ret tt
      | _ => raise (no_attribute o "values")
      end in
  let gathered_data_list := replicate (Z.to_nat world_size) VNone in
  all_gather_object gathered_data_list metric_data.

(** [world_size] is what [PGWrapper(process_group).get_world_size()]
    reports. *)
Definition get_synced_metric (metric : pyval) (world_size : Z) : M pyval :=
  do! _validate_rank_and_world_size world_size in
  if (world_size =? 1)%Z then ret metric else
  let! gathered_metric_list := _sync_metric_object metric world_size in
  let! rank_0 := index gathered_metric_list 0 in
  let! c := clone_metric rank_0 in
  let! _ := metric_attr c "to" in
  let! d := device metric in
  let! c := to c d in
  merge_state c (drop 1 gathered_metric_list).

Definition get_synced_metric_collection (metric_collection : pyval)
    (world_size : Z) : M pyval :=
  do! _validate_rank_and_world_size world_size in
  if (world_size =? 1)%Z then ret metric_collection else
  let! list_of_metric_collections :=
    _sync_metric_object metric_collection world_size in
  let! rank_0_dict := index list_of_metric_collections 0 in
  let! o := lookup_obj rank_0_dict in
  match o with
  | Some (OMapping true items) =>
      let! synced_metric_dict := alloc (OMapping true []) in
      do! for_list
            (λ metric_key,
               let! base_metric := getitem rank_0_dict metric_key in
               let! other_rank_metrics :=
                 for_list (λ rank,
                             let! c := index list_of_metric_collections rank in
                             getitem c metric_key)
                          (seq 1 (Z.to_nat world_size - 1)) in
               let! c := clone_metric base_metric in
               let! _ := metric_attr c "to" in
               let! d := device base_metric in
               let! c := to c d in
               let! synced_metric := merge_state c other_rank_metrics in
               setitem synced_metric_dict metric_key synced_metric)
            (items.*1) in
      ret (VRef synced_metric_dict)
  | _ => ret VNone
  end.

(** ** Notions used in the statements *)

(** [framed n m P]: [m] takes part in no collective; it leaves the first
    [n] objects of the store and the log as they are, frees nothing, and
    what it returns satisfies [P]. *)
Definition framed {A} (n : nat) (m : M A) (P : A → Prop) : Prop :=
  ∀ st, n ≤ length (heap st) →
    ∃ st' r, m st = Ret (st', r)
      ∧ take n (heap st') = take n (heap st)
      ∧ length (heap st) ≤ length (heap st')
      ∧ log st' = log st
      ∧ match r with inl _ => True | inr a => P a end.

(** [v] is [None] or an object allocated at or after address [n]. *)
Definition fresh (n : nat) (v : pyval) : Prop :=
  match v with VNone => True | VRef l => n ≤ l end.

(** The object [loads] makes of a pickle. *)
Definition loaded (p : pickled) (o : obj) : Prop :=
  match p, o with
  | PkMetric s, OMetric s' => s = s'
  | PkMapping mutable items, OMapping mutable' items' =>
      mutable = mutable' ∧ items'.*1 = items.*1
  | _, _ => False
  end.

(** The result is a list object that holds [v] and nothing else. *)
Definition wrapped_as_bundle (v : pyval) (out : state * (exn + pyval)) : Prop :=
  ∃ l b, v = VRef l ∧ out.2 = inr (VRef b)
         ∧ heap out.1 !! b = Some (OList [l]).

End WithMetric.

(** ** A metric with list state

    A metric in the style of the curve metrics: its state is a list of
    1-d buffers, one per [update]; [_prepare_for_merge_state] concatenates
    them into a single buffer before the state is shipped, and
    [merge_state] appends the buffers of the other metrics. *)
Record cat_state := CatState {
  cat_device : device_t;
  cat_inputs : list (list Z);
}.

Definition cat_prepare (s : cat_state) : cat_state :=
  match cat_inputs s with
  | [] => s
  | _ => CatState (cat_device s) [concat (cat_inputs s)]
  end.

#[export] Instance CatMetric : MetricClass := {|
  MState := cat_state;
  device_of := cat_device;
  on_prepare_for_merge_state := cat_prepare;
  on_to s d := CatState d (cat_inputs s);
  on_merge_state s others :=
    CatState (cat_device s) (cat_inputs s ++ concat (cat_inputs <$> others));
|}.

(** A rank that holds one such metric and nothing else. *)
Definition cat_input : cat_state := CatState Cpu [[1%Z; 2%Z]; [3%Z]].
Definition cat_store : state (MC := CatMetric) := State [OMetric cat_input] [].

(** What a collective over two ranks delivers to it: its own metric as
    prepared, and a second rank's metric. *)
Definition cat_answer : list (pickled (MC := CatMetric)) :=
  [PkMetric (cat_prepare cat_input); PkMetric (CatState (Cuda 0) [[9%Z]])].

(** The second rank of that group, with its own metric at address 0. *)
Definition cat_store_1 : state (MC := CatMetric) :=
  State [OMetric (CatState (Cuda 0) [[9%Z]])] [].

End Toolkit.

(* ================================================================== *)
(** * State-tree synchronisation ([torcheval.metrics.synclib]) *)
(* ================================================================== *)

(** [tests/metrics/test_synclib.py] drives four functions of
    [torcheval/metrics/synclib.py]; that module is not among the sources, so
    it is modelled here from its specification. *)

Module Synclib.
Import Collective.

(** ** Data model (§3) *)

Inductive dtype := float16 | float32 | float64 | int32 | int64 | uint8.

#[global] Instance dtype_eq_dec : EqDecision dtype.
Proof. solve_decision. Defined.

(** Modelled from the spec: [Buffer(dtype, shape, raw bytes)] (§3).  The
    payload is kept as the row-major sequence of the elements' bit
    patterns. *)
Record tensor := Tensor {
  t_dtype : dtype;
  t_shape : list nat;
  t_data : list Z;
}.

#[global] Instance tensor_eq_dec : EqDecision tensor.
Proof. solve_decision. Defined.

(** The number of elements a shape asks for; a buffer is [sized] if its
    payload has that many. *)
Definition numel (shape : list nat) : nat := foldr Nat.mul 1 shape.


(** Modelled from the spec: [Scalar(number)] (§3).  A Python number keeps
    its numeric kind: an [int], or a [float] given by its binary64 bit
    pattern. *)
Inductive number := PyInt (z : Z) | PyFloat (bits : Z).

#[global] Instance number_eq_dec : EqDecision number.
Proof. solve_decision. Defined.


(** Modelled from the spec: the State Tree of §3.  A buffer leaf may be
    absent ([None]); the elements of a list are buffers (§1, §4.3: "each
    element within the list is itself a Buffer entry"); a mapping keeps the
    insertion order of its keys. *)
Inductive state_tree :=
| Scalar (x : number)
| Buffer (b : option tensor)
| ListOf (l : list tensor)
| Mapping (kvs : list (string * state_tree)).

Inductive kind := KScalar | KBuffer | KList | KMapping.

#[global] Instance kind_eq_dec : EqDecision kind.
Proof. solve_decision. Defined.


(** A Traversal Entry: the keys leading to a node, and the node's kind. *)
Definition path := list string.
Definition entry : Type := path * kind.

(** Modelled from the spec: the error taxonomy of §7. *)
Inductive error :=
| InvalidGroup
| WorldSizeError
| ShapeReconciliationFailure
| StructuralMismatch.



(** ** Traversal Planner (§4.1) *)




Fixpoint lookup_key (k : string) (kvs : list (string * state_tree))
  : option state_tree :=
  match kvs with
  | [] => None
  | kv :: kvs' => if decide (kv.1 = k) then Some kv.2 else lookup_key k kvs'
  end.

Fixpoint get_at (p : path) (t : state_tree) : option state_tree :=
  match p with
  | [] => Some t
  | k :: p' =>
      match t with
      | Mapping kvs => lookup_key k kvs ≫= get_at p'
      | _ => None
      end
  end.

(** ** The protocol's monad: collectives and the errors of §7 *)

Inductive payload :=
| PLen (n : nat)
| PDesc (d : option (dtype * list nat))
| PNum (x : number)
| PRaw (data : list Z).

Definition as_len (x : payload) : option nat :=
  match x with PLen n => Some n | _ => None end.
Definition as_desc (x : payload) : option (option (dtype * list nat)) :=
  match x with PDesc d => Some d | _ => None end.
Definition as_num (x : payload) : option number :=
  match x with PNum n => Some n | _ => None end.
Definition as_raw (x : payload) : option (list Z) :=
  match x with PRaw data => Some data | _ => None end.

Definition CE (A : Type) : Type := coll payload (error + A).

Definition ret {A} (a : A) : CE A := Ret (inr a).
Definition raise {A} (e : error) : CE A := Ret (inl e).
Definition resume {A B} (f : A → CE B) (r : error + A) : CE B :=
  match r with inl e => Ret (inl e) | inr a => f a end.
Definition bind {A B} (m : CE A) (f : A → CE B) : CE B := cbind m (resume f).

Fixpoint for_list {A B} (f : A → CE B) (l : list A) : CE (list B) :=
  match l with
  | [] => ret []
  | x :: l' => bind (f x) (λ y, bind (for_list f l') (λ ys, ret (y :: ys)))
  end.

(** Modelled from the spec (glossary): "every participant contributes one
    value and every participant receives the ordered list of all
    contributed values".  A contribution of another kind than the local one
    means the ranks' traversals disagree (§7, StructuralMismatch). *)
Definition all_gather {A} (c : primitive) (enc : A → payload)
    (dec : payload → option A) (x : A) : CE (list A) :=
  Gather c (enc x)
    (λ xs, match mapM dec xs with
           | Some ys => ret ys
           | None => raise StructuralMismatch
           end).

(** ** Metadata Synchronizer (§4.2) *)

(** Modelled from the spec: "computed via an all-gather of each rank's
    local length (a single integer)". *)
Definition _sync_list_length (tensor_list : list tensor) : CE (list nat) :=
  all_gather AllGatherObject PLen as_len (length tensor_list).

Definition descriptor (t : tensor) : dtype * list nat := (t_dtype t, t_shape t).

(** Modelled from the spec: "the first rank in canonical rank order that
    reports a concrete buffer is authoritative" (§4.2). *)
Fixpoint first_concrete (descs : list (option (dtype * list nat)))
  : option (dtype * list nat) :=
  match descs with
  | [] => None
  | Some d :: _ => Some d
  | None :: descs' => first_concrete descs'
  end.

(** Modelled from the spec: what a rank concludes from the gathered
    descriptors.  "Two ranks report concrete but different dtypes for the
    same path" is a [ShapeReconciliationFailure], "surfaced to the caller
    rather than guessed" (§7); otherwise the first concrete descriptor is
    adopted, or the path is absent for all (§4.2).  Ranks that differ in
    the shape only are no failure of §7: the first one's shape is the
    reconciled one. *)
Definition reconcile (descs : list (option (dtype * list nat)))
  : error + option (dtype * list nat) :=
  match first_concrete descs with
  | None => inr None
  | Some d =>
      if decide (Forall (λ d' : dtype * list nat, d'.1 = d.1) (omap id descs))
      then inr (Some d)
      else inl ShapeReconciliationFailure
  end.

(** Modelled from the spec: the algorithm of §4.2.  Every rank reports its
    descriptor, or that it has none, through an all-gather of descriptors
    (never the payload), and reconciles what it received; a failure is
    "detected locally-per-rank (from the gathered metadata) and raised
    synchronously to the caller on every rank" (§7). *)
Definition _sync_dtype_and_shape (input : option tensor)
  : CE (option (dtype * list nat)) :=
  bind (all_gather AllGatherObject PDesc as_desc (descriptor <$> input))
       (λ descs, Ret (reconcile descs)).

(** ** Collective Exchanger (§4.3) *)

(** Modelled from the spec: the placeholder of §4.2, a zero-initialised
    buffer of the reconciled dtype and shape. *)
Definition zeros (d : dtype * list nat) : tensor :=
  Tensor d.1 d.2 (replicate (numel d.2) 0%Z).

(** Modelled from the spec: scalar entries.  The number is gathered as it
    is, with its numeric kind. *)
Definition sync_scalar (x : number) : CE (list number) :=
  all_gather AllGatherObject PNum as_num x.

(** Modelled from the spec: [all_gather_fixed] (§6) for a path whose
    reconciled metadata is [d].  The rank sends the raw payload of its
    buffer and receives every rank's payload in a buffer it has allocated
    with the reconciled dtype and shape (§1: "pre-allocate exactly-sized
    receive buffers").  The collective is one of buffers of one size: "a
    rank that issued collectives ... with a mismatched buffer size,
    deadlocks or corrupts the exchange" (§4.3), so ranks whose payloads
    differ in size do not meet in it. *)
Definition all_gather_fixed (d : dtype * list nat) (t : tensor)
  : CE (list tensor) :=
  bind (all_gather (AllGatherFixed (length (t_data t))) PRaw as_raw (t_data t))
       (λ raws, ret (Tensor d.1 d.2 <$> raws)).

(** Modelled from the spec: buffer entries.  After reconciliation "each
    rank contributes a buffer of the reconciled shape (its own data, or
    the placeholder from §4.2 if it locally lacked one); an all-gather of
    these fixed-size buffers yields one buffer per rank"; if no rank has
    data nothing is exchanged and every slot is absent (§4.3). *)
Definition sync_buffer (world_size : nat) (b : option tensor)
  : CE (list (option tensor)) :=
  bind (_sync_dtype_and_shape b)
       (λ meta,
          match meta with
          | None => ret (replicate world_size None)
          | Some d =>
              bind (all_gather_fixed d (default (zeros d) b))
                   (λ bufs, ret (Some <$> bufs))
          end).

(** Slot [i] of a list entry: the first [n] exchanged elements, as rank
    [i] contributed them. *)
Definition list_slot (columns : list (list (option tensor))) (i n : nat)
  : option (list tensor) :=
  mapM (λ column, column !! i ≫= id) (take n columns).

(** Modelled from the spec: list entries.  The reconciled lengths say how
    many elements each rank contributes; element [j] is exchanged as a
    buffer entry by every rank, a rank whose list is shorter standing in
    with the placeholder; slot [i] keeps rank [i]'s own number of
    elements. *)
Definition sync_list (world_size : nat) (l : list tensor)
  : CE (list (list tensor)) :=
  bind (_sync_list_length l)
       (λ lengths,
          bind (for_list (λ j, sync_buffer world_size (l !! j))
                         (seq 0 (foldr Nat.max 0 lengths)))
               (λ columns,
                  match mapM (λ '(i, n), list_slot columns i n)
                             (imap pair lengths) with
                  | Some slots => ret slots
                  | None => raise StructuralMismatch
                  end)).


(** Modelled from the spec: one Traversal Entry, exchanged according to
    its kind; the result is the node every rank holds at that path, by
    rank.  A mapping entry moves no data: its members are entries of their
    own.  A rank whose tree has another kind of node at the path than the
    plan says fails fast (§7). *)
Definition sync_node (world_size : nat) (node : option state_tree) (k : kind)
  : CE (list state_tree) :=
  match node, k with
  | Some (Scalar x), KScalar => bind (sync_scalar x) (λ xs, ret (Scalar <$> xs))
  | Some (Buffer b), KBuffer =>
      bind (sync_buffer world_size b) (λ bs, ret (Buffer <$> bs))
  | Some (ListOf l), KList =>
      bind (sync_list world_size l) (λ ls, ret (ListOf <$> ls))
  | Some (Mapping _), KMapping => ret (replicate world_size (Mapping []))
  | _, _ => raise StructuralMismatch
  end.

Definition sync_entry (world_size : nat) (t : state_tree) (e : entry)
  : CE (list state_tree) :=
  sync_node world_size (get_at e.1 t) e.2.

(** Modelled from the spec: the exchange walks the plan, entry by entry,
    in the plan's order (§4.3, §5). *)
Definition exchange (world_size : nat) (t : state_tree) (plan : list entry)
  : CE (list (list state_tree)) :=
  for_list (sync_entry world_size t) plan.

(** ** Snapshot Reassembler (§4.4) *)

(** [alter_or_append k f kvs]: the member [k] becomes [f] of what it was,
    in place; a new key goes last. *)
Fixpoint alter_or_append (k : string) (f : option state_tree → state_tree)
    (kvs : list (string * state_tree)) : list (string * state_tree) :=
  match kvs with
  | [] => [(k, f None)]
  | kv :: kvs' =>
      if decide (kv.1 = k) then (kv.1, f (Some kv.2)) :: kvs'
      else kv :: alter_or_append k f kvs'
  end.

(** Modelled from the spec: the reassembler puts a node at its path, the
    mappings on the way being there already (the plan is in pre-order); a
    new member goes after the members that are there, which reproduces the
    key order the planner recorded (§4.4). *)
Fixpoint insert_at (p : path) (v : state_tree) (t : state_tree) : state_tree :=
  match p with
  | [] => v
  | k :: p' =>
      match t with
      | Mapping kvs =>
          Mapping (alter_or_append k
                     (λ old, insert_at p' v (default (Mapping []) old)) kvs)
      | _ => t
      end
  end.

Definition rebuild (nodes : list (path * state_tree)) : state_tree :=
  foldl (λ acc pv, insert_at pv.1 pv.2 acc) (Mapping []) nodes.

(** Modelled from the spec: "walks the same path set produced in §4.1 and
    rebuilds ... the original tree shape, once per rank index". *)
Definition reassemble (flat : list (list state_tree)) (plan : list entry)
    (world_size : nat) : option (list state_tree) :=
  mapM (λ i, rebuild <$> mapM (λ '(e, nodes), pair (e : entry).1 <$> nodes !! i)
                              (zip plan flat))
       (seq 0 world_size).

(** Modelled from the spec: [sync_states] (§6), with the identity pass of
    §5 for a group of one. *)
Definition sync_states (world_size : nat) (t : state_tree) (plan : list entry)
  : CE (list state_tree) :=
  if decide (world_size = 1) then ret [t]
  else
    bind (exchange world_size t plan)
         (λ flat,
            match reassemble flat plan world_size with
            | Some bundle => ret bundle
            | None => raise StructuralMismatch
            end).

(** ** Notions used in the statements *)









(** ** The data of [test_synclib.py] *)

(** [torch.tensor(n)]: a 0-d [int64] tensor. *)
Definition int_tensor (n : Z) : tensor := Tensor int64 [] [n].

(** [_test_sync_list_length]: lists of 1, 0, 4 and 3 tensors on ranks
    0 to 3. *)
Definition length_test_lists : list (list tensor) :=
  [replicate 1 (int_tensor 1); []; replicate 4 (int_tensor 1);
   replicate 3 (int_tensor 1)].





(** [_test_empty_tensor_list_sync_state]: rank 1's list is empty. *)
Definition list_test_lists : list (list tensor) :=
  [[Tensor float32 [2; 3] [1; 2; 3; 4; 5; 6]%Z;
    Tensor float32 [2; 3] [7; 8; 9; 10; 11; 12]%Z];
   []].

(** [_test_complex_mixed_state]: lists of two and of three tensors. *)
Definition mixed_test_lists : list (list tensor) :=
  [[Tensor float32 [2; 3] [1; 2; 3; 4; 5; 6]%Z;
    Tensor float32 [2; 3] [7; 8; 9; 10; 11; 12]%Z];
   [Tensor float32 [2; 3] [13; 14; 15; 16; 17; 18]%Z;
    Tensor float32 [2; 3] [19; 20; 21; 22; 23; 24]%Z;
    Tensor float32 [2; 3] [25; 26; 27; 28; 29; 30]%Z]].

(** Two ranks that hold tensors of different dtypes at the same path: as
    a buffer, and as the only element of a list. *)
Definition conflict_inputs : list (option tensor) :=
  [Some (Tensor float32 [2] [0; 0]%Z); Some (Tensor int64 [2] [5; 6]%Z)].






(** [_test_sync_dtype_and_shape]: ranks 0 and 1 hold [float64] scalars,
    rank 2 nothing. *)
Definition dtype_test_inputs : list (option tensor) :=
  [Some (Tensor float64 [] [3%Z]); Some (Tensor float64 [] [1%Z]); None].

End Synclib.

(* ================================================================== *)
(** * [torcheval/metrics/toolkit.py], the rest of the module *)
(* ================================================================== *)

Module ToolkitRest.
Import Collective Toolkit.

(** ** Dictionaries

    A [dict] keeps its keys in insertion order; storing under a key that
    is there already replaces the value and leaves the key where it is. *)
Section Dict.
Context {V : Type}.

Fixpoint dict_get (key : string) (d : list (string * V)) : option V :=
  match d with
  | [] => None
  | (k, v) :: d' => if decide (k = key) then Some v else dict_get key d'
  end.

Fixpoint dict_set (key : string) (v : V) (d : list (string * V))
  : list (string * V) :=
  match d with
  | [] => [(key, v)]
  | (k, v') :: d' =>
      if decide (k = key) then (k, v) :: d'
      else (k, v') :: dict_set key v d'
  end.

(** Storing the items [kvs] one after the other. *)
Definition dict_fold (d kvs : list (string * V)) : list (string * V) :=
  foldl (λ d kv, dict_set kv.1 kv.2 d) d kvs.

(** [{k: v for (k, v) in kvs}] *)
Definition dict_of (kvs : list (string * V)) : list (string * V) :=
  dict_fold [] kvs.

End Dict.

(** ** [classwise_converter]

    [input] is a [torch.Tensor]: one without a dimension (a single
    number), or one given by its slices along the first dimension.
    Iterating over the latter yields the slices in order, and
    [input.size(dim=0)] is their number.  A tensor without a dimension
    can neither be iterated over ([TypeError]) nor asked for the size of
    its first dimension ([IndexError]). *)
Inductive torch_tensor (V : Type) :=
| ZeroDim
| Slices (slices : list V).
Arguments ZeroDim {V}.
Arguments Slices {V} slices.

(** What the function raises: its own [ValueError], or what the tensor
    raises. *)
Inductive converter_exn :=
| ValueError (msg : string)
| FromTensor (e : exn).

(** [iter(input)], as [enumerate] and [zip] call it. *)
Definition tensor_iter {V} (input : torch_tensor V) : converter_exn + list V :=
  match input with
  | ZeroDim => inl (FromTensor (TypeError "iteration over a 0-d tensor"))
  | Slices slices => inr slices
  end.

(** [input.size(dim=0)] *)
Definition size_dim_0 {V} (input : torch_tensor V) : converter_exn + nat :=
  match input with
  | ZeroDim =>
      inl (FromTensor
             (IndexError
                "Dimension specified as 0 but tensor has no dimensions"))
  | Slices slices => inr (length slices)
  end.

Definition classwise_converter {V} (input : torch_tensor V) (name : string)
    (labels : option (list string)) : converter_exn + list (string * V) :=
  match labels with
  | None =>
      match tensor_iter input with
      | inl e => inl e
      | inr slices =>
          inr (dict_of (imap (λ i val, (name +:+ "_" +:+ pretty i, val))
                             slices))
      end
  | Some labels =>
      match size_dim_0 input with
      | inl e => inl e
      | inr classes =>
          if decide (classes ≠ length labels) then
            inl (ValueError
                   ("Number of labels " +:+ pretty (length labels)
                    +:+ " must be equal to the number of classes "
                    +:+ pretty classes +:+ "!"))
          else
            match tensor_iter input with
            | inl e => inl e
            | inr slices =>
                inr (dict_of (zip_with
                                (λ label val, (name +:+ "_" +:+ label, val))
                                labels slices))
            end
      end
  end.

(** ** The rest of the [Metric] interface

    [reset] acts on its receiver in place; [compute] and [state_dict] read
    its state. *)
Class MetricOps (MC : MetricClass) := {
  TComputeReturn : Type;
  TStateDict : Type;
  on_reset : MState → MState;
  on_compute : MState → TComputeReturn;
  on_state_dict : MState → TStateDict;
}.

Section WithMetric.
Context `{MC : MetricClass} {MO : MetricOps MC}.

Notation "'let!' x := m 'in' k" := (bind m (λ x, k))
  (at level 10, x name, m at level 100, k at level 200, only parsing).
Notation "'let!' ' p := m 'in' k" := (bind m (fun p => k))
  (at level 10, p strict pattern, m at level 100, k at level 200,
   only parsing).
Notation "'do!' m 'in' k" := (bind m (λ _, k))
  (at level 10, m at level 100, k at level 200, only parsing).

Definition reset (v : pyval) : M unit :=
  let! '(l, s) := metric_attr v "reset" in
  store l (OMetric (on_reset s)).

Definition compute (v : pyval) : M TComputeReturn :=
  let! '(_, s) := metric_attr v "compute" in ret (on_compute s).

Definition state_dict (v : pyval) : M TStateDict :=
  let! '(_, s) := metric_attr v "state_dict" in ret (on_state_dict s).

(** ** Iteration

    What a [for] loop or a comprehension gets out of an object: the items
    of a list (or tuple), the keys of a mapping. *)
Inductive element := EVal (v : pyval) | EStr (s : string).

Definition iter (v : pyval) : M (list element) :=
  let! o := lookup_obj v in
  match o with
  | Some (OList items) => ret (EVal ∘ VRef <$> items)
  | Some (OMapping _ items) => ret (EStr <$> items.*1)
  | _ => raise (TypeError ("'" +:+ type_name o
                           +:+ "' object is not iterable"))
  end.

(** [metric.attr(...)] for an element of the iteration: a string has none
    of the methods of a metric. *)
Definition call {A} (attr : string) (method : pyval → M A) (e : element)
  : M A :=
  match e with
  | EVal v => method v
  | EStr _ => raise (AttributeError
                       ("'str' object has no attribute '" +:+ attr +:+ "'"))
  end.

(** [mapping.items()] *)
Definition items (v : pyval) : M (list (string * loc)) :=
  let! o := lookup_obj v in
  match o with
  | Some (OMapping _ items) => ret items
  | _ => raise (no_attribute o "items")
  end.

(** ** The toolkit *)

Definition sync_and_compute (metric : pyval) (world_size : Z)
  : M TComputeReturn :=
  let! synced_metric := get_synced_metric metric world_size in
  let! compute_result := compute synced_metric in
  ret compute_result.

(** The keys of a [dict] are distinct, so the comprehension over
    [synced_metrics.items()] keeps one entry per item, in order. *)
Definition sync_and_compute_collection (metrics : pyval) (world_size : Z)
  : M (list (string * TComputeReturn)) :=
  let! synced_metrics := get_synced_metric_collection metrics world_size in
  let! kms := items synced_metrics in
  for_list (λ km, let! r := compute (VRef km.2) in ret (km.1, r)) kms.

Definition get_synced_state_dict_collection (metric_collection : pyval)
    (world_size : Z) : M (list (string * TStateDict)) :=
  let! synced_metrics :=
    get_synced_metric_collection metric_collection world_size in
  let! kms := items synced_metrics in
  for_list (λ km, let! r := state_dict (VRef km.2) in ret (km.1, r)) kms.

(** [deepcopy] of a string is the string.  The new list is given by its
    elements. *)
Definition clone_metrics (metrics : pyval) : M (list element) :=
  let! ms := iter metrics in
  for_list (λ metric,
              match metric with
              | EVal v => let! c := clone_metric v in ret (EVal c)
              | EStr s => ret (EStr s)
              end) ms.

Definition reset_metrics (metrics : pyval) : M pyval :=
  let! ms := iter metrics in
  do! for_list (λ metric, call "reset" reset metric) ms in
  ret metrics.

(** [*args] and [**kwargs] go to [Metric.to] as they are; [on_to] is what
    [Metric.to] does with them. *)
Definition to_device (metrics : pyval) (device : device_t) : M pyval :=
  let! ms := iter metrics in
  do! for_list (λ metric, call "to" (λ m, to m device) metric) ms in
  ret metrics.

(** ** Notions used in the statements *)

(** One rank of a process group: its store, the metric it passes to the
    toolkit and that metric's state. *)
Record rank := Rank {
  rank_store : state;
  rank_metric : loc;
  rank_state : MState;
}.

Definition holds_metric (r : rank) : Prop :=
  heap (rank_store r) !! rank_metric r = Some (OMetric (rank_state r)).

(** What the rank ships, and what it ends up with in a group whose rank 0
    is [r0] and whose other ranks are [rs]: rank 0's prepared state, moved
    to the rank's own device and merged with the others' prepared
    states. *)
Definition prepared (r : rank) : MState :=
  on_prepare_for_merge_state (rank_state r).

Definition synced_state (r0 : rank) (rs : list rank) (r : rank) : MState :=
  on_merge_state (on_to (prepared r0) (device_of (prepared r)))
                 (prepared <$> rs).

(** The object after [n] in-place calls of a method that makes [f] of a
    metric's state. *)
Definition called (f : MState → MState) (n : nat) (o : obj) : obj :=
  match o with
  | OMetric s => OMetric (Nat.iter n f s)
  | _ => o
  end.

(** How often [l] is listed in [ls]. *)
Definition occurrences (l : loc) (ls : list loc) : nat :=
  length (filter (l =.) ls).

(** The state a rank's pickle holds under [key]. *)
Definition state_under (key : string) (p : pickled) : option MState :=
  match p with
  | PkMapping _ items => dict_get key items
  | PkMetric _ => None
  end.

(** Rank 0's entries, each moved to its own device and merged with the
    other ranks' states under the same key. *)
Definition merged_collection (items0 : list (string * MState))
    (others : list pickled) : option (list (string * MState)) :=
  mapM (λ ks, ss ← mapM (state_under ks.1) others;
              Some (ks.1, on_merge_state (on_to ks.2 (device_of ks.2)) ss))
       items0.

End WithMetric.

(** ** The list-state metric, completed

    [reset] drops the buffers; [compute] and [state_dict] give the
    concatenated buffer. *)
#[export] Instance CatOps : MetricOps CatMetric := {|
  TComputeReturn := list Z;
  TStateDict := list Z;
  on_reset s := CatState (cat_device s) [];
  on_compute s := concat (cat_inputs s);
  on_state_dict s := concat (cat_inputs s);
|}.

(** A rank that holds two such metrics, at addresses 0 and 1; a list of
    them that lists the first one twice, at address 2; a dict of them, at
    address 3; and a list that holds the dict between the two metrics, at
    address 4. *)
Definition cat_other : cat_state := CatState (Cuda 0) [[9%Z]].

Definition cat_objects : state (MC := CatMetric) :=
  State [OMetric cat_input; OMetric cat_other;
         OList [0; 1; 0];
         OMapping true [("a", 0); ("b", 1)];
         OList [0; 3; 1]] [].

(** What a collective over two ranks delivers to it: its own dict as
    prepared, and the dict of the other rank, which has the same keys or
    lacks the key "b". *)
Definition cat_rank_0 : list (string * cat_state) :=
  [("a", cat_prepare cat_input); ("b", cat_other)].

Definition cat_rank_1 : pickled (MC := CatMetric) :=
  PkMapping true [("b", CatState Cpu [[7%Z]]); ("a", CatState Cpu [[5%Z]])].

Definition cat_rank_1_short : pickled (MC := CatMetric) :=
  PkMapping true [("a", CatState Cpu [[5%Z]])].

Definition cat_dict_answer : list (pickled (MC := CatMetric)) :=
  [PkMapping true cat_rank_0; cat_rank_1].

Definition cat_late_answer : list (pickled (MC := CatMetric)) :=
  [PkMapping true cat_rank_0; cat_rank_1_short].

(** A rank with a dict, at address 2, whose value under "b" is a list,
    not a metric. *)
Definition cat_bad_dict : state (MC := CatMetric) :=
  State [OMetric cat_input; OList [0];
         OMapping true [("a", 0); ("b", 1); ("c", 0)]] [].

End ToolkitRest.

(* ================================================================== *)
(** * Facts about lock-step runs *)
(* ================================================================== *)

Module CollectiveFacts.
Import Collective.

Section Coll.
Context {P : Type}.
Implicit Types (A B X : Type).

Lemma finished_Some {A} (p : coll P A) a : finished p = Some a → p = Ret a.
Proof. destruct p; simpl; congruence. Qed.

Lemma pending_Some {A} c (p : coll P A) x k :
  pending c p = Some (x, k) → p = Gather c x k.
Proof.
  destruct p as [|c' x' k']; simpl; [done|].
  case_decide; [|done]. intros [= -> ->]. by subst.
Qed.

Lemma mapM_finished_bind {A B} (ps : list (coll P A)) rs :
  mapM finished ps = Some rs →
  ∀ fs : list (A → coll P B), length fs = length ps →
  zip_with cbind ps fs = zip_with (λ a g, g a) rs fs.
Proof.
  rewrite mapM_Some. induction 1 as [|p r ps rs Hp _ IH]; intros fs Hlen.
  - done.
  - destruct fs as [|f fs]; [done|]. simpl in *.
    apply finished_Some in Hp as ->. simpl. f_equal. apply IH. lia.
Qed.

Lemma mapM_pending_bind {A B} c (ps : list (coll P A)) xks :
  mapM (pending c) ps = Some xks →
  ∀ fs : list (A → coll P B), length fs = length ps →
  mapM (pending c) (zip_with cbind ps fs)
  = Some (zip_with (λ xk f, (fst xk, λ ys, cbind (snd xk ys) f)) xks fs).
Proof.
  rewrite mapM_Some. induction 1 as [|p [x k] ps xks Hp _ IH]; intros fs Hlen.
  - by destruct fs.
  - destruct fs as [|f fs]; [done|]. simpl in *.
    apply pending_Some in Hp as ->. simpl.
    rewrite decide_True by done. simpl.
    rewrite IH by lia. done.
Qed.

Lemma zip_bind_fst {A B} (xks : list (P * (list P → coll P A))) :
  ∀ fs : list (A → coll P B), length fs = length xks →
  (zip_with (λ xk f, (fst xk, λ ys, cbind (snd xk ys) f)) xks fs).*1
  = xks.*1.
Proof.
  induction xks as [|xk xks IH]; intros [|f fs] Hlen; simplify_eq/=; try done.
  f_equal. by apply IH.
Qed.

Lemma zip_bind_resume {A B} (xks : list (P * (list P → coll P A))) ys :
  ∀ fs : list (A → coll P B), length fs = length xks →
  (λ xk, snd xk ys)
    <$> zip_with (λ xk f, (fst xk, λ ys, cbind (snd xk ys) f)) xks fs
  = zip_with cbind ((λ xk, snd xk ys) <$> xks) fs.
Proof.
  induction xks as [|xk xks IH]; intros [|f fs] Hlen; simplify_eq/=; try done.
  f_equal. by apply IH.
Qed.

Lemma run_bind {A B} (p : coll P A) :
  ∀ ps r rs (f : A → coll P B) fs,
    run p ps = Some (r :: rs) →
    length fs = length ps →
    run (cbind p f) (zip_with cbind ps fs)
    = run (f r) (zip_with (λ a g, g a) rs fs).
Proof.
  induction p as [a|c x k IH]; intros ps r rs f fs Hrun Hlen; simpl in *.
  - destruct (mapM finished ps) as [rs'|] eqn:Hps; simplify_eq/=.
    by rewrite (mapM_finished_bind _ _ Hps).
  - destruct (mapM (pending c) ps) as [xks|] eqn:Hps; [|done].
    rewrite (mapM_pending_bind _ _ _ Hps) by done.
    assert (length ps = length xks) as Hx by (eapply length_mapM; eauto).
    rewrite zip_bind_fst, zip_bind_resume by lia.
    apply IH; [done|]. rewrite length_fmap. lia.
Qed.

Lemma length_run {A} (p : coll P A) :
  ∀ ps rs, run p ps = Some rs → length rs = S (length ps).
Proof.
  induction p as [a|c x k IH]; intros ps rs Hrun; simpl in *.
  - destruct (mapM finished ps) as [rs'|] eqn:Hps; simplify_eq/=.
    f_equal. symmetry. eapply length_mapM; eauto.
  - destruct (mapM (pending c) ps) as [xks|] eqn:Hps; [|done].
    apply IH in Hrun. rewrite length_fmap in Hrun.
    rewrite Hrun. f_equal. symmetry. eapply length_mapM; eauto.
Qed.

Lemma length_run_world {A} (w : list (coll P A)) rs :
  run_world w = Some rs → length rs = length w.
Proof.
  destruct w as [|p ps]; simpl; [by intros [= <-]|]. apply length_run.
Qed.

Lemma zip_with_fmap_diag {X Y Z W} (f : Y → Z → W) (g : X → Y) (h : X → Z)
    (xs : list X) :
  zip_with f (g <$> xs) (h <$> xs) = (λ x, f (g x) (h x)) <$> xs.
Proof. induction xs as [|x xs IH]; [done|]. csimpl. by rewrite IH. Qed.

Lemma zip_with_apply_fmap {X Y Z} (h : X → Y → Z) (xs : list X) :
  ∀ rs, zip_with (λ a g, g a) rs (h <$> xs) = zip_with h xs rs.
Proof.
  induction xs as [|x xs IH]; intros [|r rs]; csimpl; try done.
  by rewrite IH.
Qed.

Lemma zip_with_replicate_r {X Y Z} (h : X → Y → Z) (xs : list X) r :
  ∀ n, length xs ≤ n → zip_with h xs (replicate n r) = (λ x, h x r) <$> xs.
Proof.
  induction xs as [|x xs IH]; intros [|n] Hn; csimpl in *; try done; [lia|].
  rewrite IH by lia. done.
Qed.

(** Rank [i] runs [g x_i] and then [h x_i] on its own result. *)
Lemma run_world_bind {X A B} (g : X → coll P A) (h : X → A → coll P B) xs rs :
  run_world (g <$> xs) = Some rs →
  run_world ((λ x, cbind (g x) (h x)) <$> xs)
  = run_world (zip_with h xs rs).
Proof.
  intros Hrun. rewrite <- zip_with_fmap_diag.
  destruct xs as [|x xs]; csimpl in *; [by simplify_eq|].
  pose proof (length_run _ _ _ Hrun) as Hlen.
  destruct rs as [|r rs]; [done|]. simpl.
  rewrite (run_bind _ _ _ _ _ _ Hrun) by (by rewrite !length_fmap).
  by rewrite zip_with_apply_fmap.
Qed.

(** The same when every rank got the same result [r] from the first
    part, as after a collective. *)
Lemma run_world_bind_uniform {X A B} (g : X → coll P A) (h : X → A → coll P B)
    xs r :
  run_world (g <$> xs) = Some (replicate (length xs) r) →
  run_world ((λ x, cbind (g x) (h x)) <$> xs)
  = run_world ((λ x, h x r) <$> xs).
Proof.
  intros Hrun. rewrite (run_world_bind _ _ _ _ Hrun).
  by rewrite zip_with_replicate_r.
Qed.

Lemma mapM_pending_gathers {X A} c (x : X → P) (k : X → list P → coll P A) xs :
  mapM (pending c) ((λ i, Gather c (x i) (k i)) <$> xs)
  = Some ((λ i, (x i, k i)) <$> xs).
Proof.
  apply mapM_Some. induction xs as [|i xs IH]; csimpl; constructor; [|done].
  simpl. by rewrite decide_True.
Qed.

Lemma mapM_finished_rets {X A} (r : X → A) xs :
  mapM finished ((λ i, Ret (P:=P) (r i)) <$> xs) = Some (r <$> xs).
Proof.
  apply mapM_Some. induction xs as [|i xs IH]; csimpl; by constructor.
Qed.

(** A collective hands every rank the rank-ordered contributions. *)
Lemma run_world_gather {X A} c (x : X → P) (k : X → list P → coll P A) xs :
  run_world ((λ i, Gather c (x i) (k i)) <$> xs)
  = run_world ((λ i, k i (x <$> xs)) <$> xs).
Proof.
  destruct xs as [|i xs]; [done|]. rewrite !fmap_cons. cbn [run_world run].
  rewrite mapM_pending_gathers. rewrite <- !list_fmap_compose. done.
Qed.

Lemma run_world_ret {X A} (r : X → A) xs :
  run_world ((λ i, Ret (P:=P) (r i)) <$> xs) = Some (r <$> xs).
Proof.
  destruct xs as [|i xs]; [done|]. rewrite !fmap_cons. cbn [run_world run].
  by rewrite mapM_finished_rets.
Qed.

End Coll.

End CollectiveFacts.

(* ================================================================== *)
(** * Facts about [toolkit.py] *)
(* ================================================================== *)

Module ToolkitFacts.
Import Collective CollectiveFacts Toolkit.

Section WithMetric.
Context `{MC : MetricClass}.

(** ** Sequencing *)

Lemma bind_Ret_inr {A B} (m : M A) (f : A → M B) st st1 a :
  m st = Ret (st1, inr a) → bind m f st = f a st1.
Proof. unfold bind. by intros ->. Qed.

Lemma bind_Ret_inl {A B} (m : M A) (f : A → M B) st st1 e :
  m st = Ret (st1, inl e) → bind m f st = Ret (st1, inl e).
Proof. unfold bind. by intros ->. Qed.

Lemma bind_bind_Ret_inr {A B C} (m : M A) (g : A → M B) (f : B → M C)
    st st1 a :
  m st = Ret (st1, inr a) → bind (bind m g) f st = bind (g a) f st1.
Proof. unfold bind. by intros ->. Qed.

Lemma bind_bind_Ret_inl {A B C} (m : M A) (g : A → M B) (f : B → M C)
    st st1 e :
  m st = Ret (st1, inl e) → bind (bind m g) f st = Ret (st1, inl e).
Proof. unfold bind. by intros ->. Qed.

(** ** Computations that stay within a frame *)

Lemma framed_ret {A} n (a : A) (P : A → Prop) : P a → framed n (ret a) P.
Proof. intros ? st ?. by exists st, (inr a). Qed.

Lemma framed_raise {A} n e (P : A → Prop) : framed n (raise e) P.
Proof. intros st ?. by exists st, (inl e). Qed.

Lemma framed_bind {A B} n (m : M A) (f : A → M B) (P : A → Prop)
    (Q : B → Prop) :
  framed n m P → (∀ a, P a → framed n (f a) Q) → framed n (bind m f) Q.
Proof.
  intros Hm Hf st Hn.
  destruct (Hm st Hn) as (st1 & [e|a] & Heq & Htake & Hlen & Hlog & HP).
  - exists st1, (inl e). by rewrite (bind_Ret_inl _ _ _ _ _ Heq).
  - destruct (Hf a HP st1) as (st2 & r & Heq2 & Htake2 & Hlen2 & Hlog2 & HQ);
      [lia|].
    exists st2, r. rewrite (bind_Ret_inr _ _ _ _ _ Heq).
    split_and!; [done|congruence|lia|congruence|done].
Qed.

Lemma framed_mono {A} n (m : M A) (P Q : A → Prop) :
  framed n m P → (∀ a, P a → Q a) → framed n m Q.
Proof.
  intros Hm HPQ st Hn.
  destruct (Hm st Hn) as (st1 & r & ? & ? & ? & ? & HP).
  exists st1, r. split_and!; try done. destruct r; auto.
Qed.

Lemma framed_for_list {A B} n (f : A → M B) (P : B → Prop) l :
  (∀ x, x ∈ l → framed n (f x) P) → framed n (for_list f l) (Forall P).
Proof.
  induction l as [|x l IH]; intros Hf; simpl.
  - by apply framed_ret.
  - eapply framed_bind; [apply Hf; left|]. intros y Hy.
    eapply framed_bind; [apply IH; intros; apply Hf; by right|].
    intros ys Hys. apply framed_ret. by constructor.
Qed.

Lemma framed_lookup_obj n v : framed n (lookup_obj v) (λ _, True).
Proof. intros st ?. by eexists st, _. Qed.

Lemma framed_alloc n o : framed n (alloc o) (λ l, n ≤ l).
Proof.
  intros st ?. eexists _, _. split; [done|]. simpl.
  split_and!; [|rewrite length_app; lia|done|done].
  by rewrite take_app_le.
Qed.

Lemma framed_store n l o : n ≤ l → framed n (store l o) (λ _, True).
Proof.
  intros ? st ?. eexists _, _. split; [done|]. simpl.
  split_and!; [|by rewrite length_insert|done|done].
  by apply take_insert_ge.
Qed.

Lemma framed_metric_attr n v attr :
  framed n (metric_attr v attr) (λ ls, v = VRef ls.1).
Proof.
  intros st ?. unfold metric_attr, bind, lookup_obj. simpl.
  destruct v as [|l]; simpl; [by eexists _, _|].
  destruct (heap st !! l) as [[]|]; by eexists _, _.
Qed.

Lemma framed_device n v : framed n (device v) (λ _, True).
Proof.
  eapply framed_bind; [apply framed_metric_attr|].
  intros [l s] _. by apply framed_ret.
Qed.

Lemma framed_to n v d :
  fresh n v → framed n (to v d) (λ v', v' = v ∧ ∃ l, v = VRef l).
Proof.
  intros Hv. eapply framed_bind; [apply framed_metric_attr|].
  intros [l s] ->. simpl in *.
  eapply framed_bind; [by apply framed_store|].
  intros _ _. apply framed_ret. eauto.
Qed.

Lemma framed_merge_state n v metrics :
  fresh n v →
  framed n (merge_state v metrics) (λ v', v' = v ∧ ∃ l, v = VRef l).
Proof.
  intros Hv. eapply framed_bind; [apply framed_metric_attr|].
  intros [l s] ->. simpl in *.
  eapply framed_bind.
  { apply framed_for_list with (P := λ _, True). intros m _.
    eapply framed_bind; [apply framed_metric_attr|].
    intros [??] _. by apply framed_ret. }
  intros others _.
  eapply framed_bind; [by apply framed_store|].
  intros _ _. apply framed_ret. eauto.
Qed.

Lemma framed_dumps n v : framed n (dumps v) (λ _, True).
Proof.
  intros st ?. unfold dumps. destruct (pickle (heap st) v); by eexists _, _.
Qed.

Lemma framed_loads n p : framed n (loads p) (λ v, ∃ l, v = VRef l ∧ n ≤ l).
Proof.
  destruct p as [s|mutable items]; simpl.
  - eapply framed_bind; [apply framed_alloc|].
    intros l ?. apply framed_ret. eauto.
  - eapply framed_bind.
    { apply framed_for_list with (P := λ _, True). intros ks _.
      eapply framed_bind; [apply framed_alloc|].
      intros l ?. by apply framed_ret. }
    intros items' _. eapply framed_bind; [apply framed_alloc|].
    intros l ?. apply framed_ret. eauto.
Qed.

Lemma framed_deepcopy n v : framed n (deepcopy v) (fresh n).
Proof.
  destruct v as [|l]; simpl; [by apply framed_ret|].
  eapply framed_bind; [apply framed_dumps|].
  intros p _. eapply framed_mono; [apply framed_loads|].
  by intros v (l' & -> & ?).
Qed.

Lemma framed_index {A} n (l : list A) i :
  framed n (index l i) (λ a, l !! i = Some a).
Proof.
  unfold index. destruct (l !! i); [by apply framed_ret|apply framed_raise].
Qed.

Lemma framed_getitem n v key : framed n (getitem v key) (λ _, True).
Proof.
  eapply framed_bind; [apply framed_lookup_obj|].
  intros [[| |]|] _; try apply framed_raise.
  destruct (assoc key items); [by apply framed_ret|apply framed_raise].
Qed.

Lemma framed_setitem n d key v :
  n ≤ d → framed n (setitem d key v) (λ _, True).
Proof.
  intros ?. eapply framed_bind; [apply framed_lookup_obj|].
  intros [[|[]|]|] _; destruct v; try apply framed_raise.
  by apply framed_store.
Qed.

Lemma framed_receive n object_list xs :
  Forall (fresh n) object_list →
  framed n (receive object_list xs) (Forall (fresh n)).
Proof.
  intros Hol. eapply framed_bind.
  { apply framed_for_list with (P := fresh n). intros p _.
    eapply framed_mono; [apply framed_loads|]. by intros v (l & -> & ?). }
  intros vs Hvs. apply framed_ret.
  apply Forall_app. split; [done|]. by apply Forall_drop.
Qed.

(** ** What the operations do on metrics *)

Lemma metric_attr_eq l s attr st :
  heap st !! l = Some (OMetric s) →
  metric_attr (VRef l) attr st = Ret (st, inr (l, s)).
Proof. intros H. unfold metric_attr, bind, lookup_obj. simpl. by rewrite H. Qed.

Lemma device_eq l s st :
  heap st !! l = Some (OMetric s) →
  device (VRef l) st = Ret (st, inr (device_of s)).
Proof.
  intros H. unfold device. by rewrite (bind_Ret_inr _ _ _ _ _ (metric_attr_eq _ _ _ _ H)).
Qed.

Lemma to_eq l s d st :
  heap st !! l = Some (OMetric s) →
  to (VRef l) d st
  = Ret (State (<[l := OMetric (on_to s d)]> (heap st)) (log st), inr (VRef l)).
Proof.
  intros H. unfold to. by rewrite (bind_Ret_inr _ _ _ _ _ (metric_attr_eq _ _ _ _ H)).
Qed.

Lemma read_state_eq l s attr st :
  heap st !! l = Some (OMetric s) →
  bind (metric_attr (VRef l) attr) (λ ls, let '(_, s') := ls in ret s') st
  = Ret (st, inr s).
Proof.
  intros H. by rewrite (bind_Ret_inr _ _ _ _ _ (metric_attr_eq _ _ _ _ H)).
Qed.

Lemma read_states_eq (metrics : list pyval) (others : list MState) st :
  Forall2 (λ v s', ∃ l', v = VRef l' ∧ heap st !! l' = Some (OMetric s'))
          metrics others →
  for_list (λ m, bind (metric_attr m "state_dict")
                      (λ ls, let '(_, s') := ls in ret s'))
           metrics st
  = Ret (st, inr others).
Proof.
  induction 1 as [|v s' metrics others (l' & -> & Hl') _ IH]; simpl; [done|].
  rewrite (bind_Ret_inr _ _ _ _ _ (read_state_eq _ _ _ _ Hl')).
  by rewrite (bind_Ret_inr _ _ _ _ _ IH).
Qed.

Lemma merge_state_eq l s (metrics : list pyval) (others : list MState) st :
  heap st !! l = Some (OMetric s) →
  Forall2 (λ v s', ∃ l', v = VRef l' ∧ heap st !! l' = Some (OMetric s'))
          metrics others →
  merge_state (VRef l) metrics st
  = Ret (State (<[l := OMetric (on_merge_state s others)]> (heap st)) (log st),
         inr (VRef l)).
Proof.
  intros H Hothers. unfold merge_state.
  rewrite (bind_Ret_inr _ _ _ _ _ (metric_attr_eq _ _ _ _ H)).
  by rewrite (bind_Ret_inr _ _ _ _ _ (read_states_eq _ _ _ Hothers)).
Qed.

Lemma clone_metric_eq l s st :
  heap st !! l = Some (OMetric s) →
  clone_metric (VRef l) st
  = Ret (State (heap st ++ [OMetric s]) (log st), inr (VRef (length (heap st)))).
Proof.
  intros H. unfold clone_metric, deepcopy, bind, dumps, pickle. simpl.
  by rewrite H.
Qed.

Lemma loads_metrics_eq (ss : list MState) :
  ∀ st, for_list loads (PkMetric <$> ss) st
        = Ret (State (heap st ++ (OMetric <$> ss)) (log st),
               inr (VRef <$> seq (length (heap st)) (length ss))).
Proof.
  induction ss as [|s ss IH]; intros st; csimpl.
  - rewrite app_nil_r. by destruct st.
  - unfold bind at 1. simpl. unfold bind at 1. rewrite IH. simpl.
    rewrite length_app, <- app_assoc. simpl.
    by replace (length (heap st) + 1) with (S (length (heap st))) by lia.
Qed.

Lemma receive_metrics_eq object_list (ss : list MState) st :
  length ss = length object_list →
  receive object_list (PkMetric <$> ss) st
  = Ret (State (heap st ++ (OMetric <$> ss)) (log st),
         inr (VRef <$> seq (length (heap st)) (length ss))).
Proof.
  intros Hlen. unfold receive.
  rewrite take_ge by (rewrite length_fmap; lia).
  rewrite (bind_Ret_inr _ _ _ _ _ (loads_metrics_eq _ _)).
  unfold ret. rewrite drop_ge, app_nil_r; [done|].
  rewrite length_fmap, length_seq. lia.
Qed.

Lemma validate_large (world_size : Z) st :
  (1 < world_size)%Z →
  _validate_rank_and_world_size world_size st = Ret (st, inr tt).
Proof.
  intros. unfold _validate_rank_and_world_size, bind.
  destruct (Z.eqb_spec world_size 1); [lia|].
  destruct (Z.eqb_spec world_size (-1)); [lia|].
  destruct (Z.ltb_spec world_size 1); [lia|]. done.
Qed.

(** With a metric as input, [_sync_metric_object] runs the metric's hook
    on it, in place, and contributes the result to the collective. *)
Lemma sync_metric_object_metric {B} world_size m s st (f : list pyval → M B) :
  heap st !! m = Some (OMetric s) →
  bind (_sync_metric_object (VRef m) world_size) f st
  = Gather AllGatherObject (PkMetric (on_prepare_for_merge_state s))
      (λ xs, bind (receive (replicate (Z.to_nat world_size) VNone) xs) f
               (State (<[m := OMetric (on_prepare_for_merge_state s)]> (heap st))
                      (log st))).
Proof.
  intros H. pose proof (lookup_lt_Some _ _ _ H) as Hlt.
  unfold _sync_metric_object.
  rewrite (bind_bind_Ret_inr _ _ _ st st (Some (OMetric s)))
    by (unfold lookup_obj; simpl; by rewrite H).
  assert (_prepare_for_merge_state (VRef m) st
          = Ret (State (<[m := OMetric (on_prepare_for_merge_state s)]> (heap st))
                       (log st), inr tt)) as Hprep.
  { unfold _prepare_for_merge_state.
    by rewrite (bind_Ret_inr _ _ _ _ _ (metric_attr_eq _ _ _ _ H)). }
  rewrite (bind_bind_Ret_inr _ _ _ _ _ _ Hprep).
  unfold all_gather_object.
  erewrite bind_bind_Ret_inr; [reflexivity|].
  unfold dumps, pickle. simpl. by rewrite list_lookup_insert_eq.
Qed.

(** ** World-size validation *)

(** C7. [_validate_rank_and_world_size] raises exactly when the reported
    world size is below 1; for -1 the error is the "not part of the
    process group" one, for the other sizes below 1 it is another one; for
    world size 1 it logs one warning and returns. *)
Theorem validate_rank_and_world_size_spec (world_size : Z) (st : state) :
  ((∃ st' e, _validate_rank_and_world_size world_size st = Ret (st', inl e))
   ↔ (world_size < 1)%Z)
  ∧ (world_size = (-1)%Z →
     _validate_rank_and_world_size world_size st
     = Ret (st, inl (RuntimeError not_in_group_msg)))
  ∧ ((world_size < 1)%Z → world_size ≠ (-1)%Z →
     ∃ msg, _validate_rank_and_world_size world_size st
            = Ret (st, inl (RuntimeError msg))
            ∧ msg ≠ not_in_group_msg)
  ∧ (world_size = 1%Z →
     ∃ msg, _validate_rank_and_world_size world_size st
            = Ret (State (heap st) (log st ++ [LogWarning msg]), inr tt))
  ∧ ((1 < world_size)%Z →
     _validate_rank_and_world_size world_size st = Ret (st, inr tt)).
Proof.
  unfold _validate_rank_and_world_size, bind, warning, raise, ret.
  destruct (Z.eqb_spec world_size 1) as [->|Hne1];
    [|destruct (Z.eqb_spec world_size (-1)) as [->|Hne2]];
    [| |destruct (Z.ltb_spec world_size 1) as [Hlt|Hge]]; simpl;
    (split; [split|split_and!]); intros; try lia; eauto;
    repeat match goal with
      | H : ∃ _, _ |- _ => destruct H
      | H : Ret _ = Ret _ |- _ => by inversion H
      end.
Qed.

(** ** Ownership *)

(** What [get_synced_metric] does with the gathered metrics. *)
Lemma framed_merge_gathered n metric (gathered : list pyval) :
  Forall (fresh n) gathered →
  framed n
    (bind (index gathered 0) (λ rank_0,
     bind (clone_metric rank_0) (λ c,
     bind (metric_attr c "to") (λ _,
     bind (device metric) (λ d,
     bind (to c d) (λ c, merge_state c (drop 1 gathered)))))))
    (λ v, ∃ l, v = VRef l ∧ n ≤ l).
Proof.
  intros Hg.
  eapply framed_bind; [apply framed_index|]. intros rank_0 H0.
  eapply framed_bind; [apply framed_deepcopy|]. intros c Hc.
  eapply framed_bind; [apply framed_metric_attr|]. intros _ _.
  eapply framed_bind; [apply framed_device|]. intros d _.
  eapply framed_bind; [by apply framed_to|]. intros c' [-> [l ->]].
  eapply framed_mono; [by apply framed_merge_state|].
  intros v [-> _]. eauto.
Qed.

Lemma merge_gathered_metrics_eq m s (s0 : MState) rest h lg :
  h !! m = Some (OMetric s) →
  bind (index (VRef <$> seq (length h) (S (length rest))) 0) (λ rank_0,
  bind (clone_metric rank_0) (λ c,
  bind (metric_attr c "to") (λ _,
  bind (device (VRef m)) (λ d,
  bind (to c d) (λ c,
    merge_state c (drop 1 (VRef <$> seq (length h) (S (length rest)))))))))
    (State (h ++ (OMetric <$> s0 :: rest)) lg)
  = Ret (State (h ++ (OMetric <$> s0 :: rest)
                  ++ [OMetric (on_merge_state (on_to s0 (device_of s)) rest)])
               lg,
         inr (VRef (length h + S (length rest)))).
Proof.
  intros Hm. pose proof (lookup_lt_Some _ _ _ Hm) as Hlt.
  set (h2 := h ++ (OMetric <$> s0 :: rest)).
  assert (length h2 = length h + S (length rest)) as Hlen2.
  { unfold h2. rewrite length_app, length_fmap. done. }
  assert (h2 !! length h = Some (OMetric s0)) as H0.
  { unfold h2. by rewrite lookup_app_r, Nat.sub_diag by lia. }
  rewrite (bind_Ret_inr _ _ _ (State h2 lg) (VRef (length h))) by done.
  rewrite (bind_Ret_inr _ _ _ _ _ (clone_metric_eq _ _ (State h2 lg) H0)).
  cbn [heap log].
  assert ((h2 ++ [OMetric s0]) !! length h2 = Some (OMetric s0)) as Hc.
  { by rewrite lookup_app_r, Nat.sub_diag by lia. }
  rewrite (bind_Ret_inr _ _ _ _ _
             (metric_attr_eq _ _ _ (State (h2 ++ [OMetric s0]) lg) Hc)).
  assert ((h2 ++ [OMetric s0]) !! m = Some (OMetric s)) as Hm2.
  { unfold h2. by rewrite !lookup_app_l by (rewrite ?length_app; lia). }
  rewrite (bind_Ret_inr _ _ _ _ _
             (device_eq _ _ (State (h2 ++ [OMetric s0]) lg) Hm2)).
  rewrite (bind_Ret_inr _ _ _ _ _
             (to_eq _ _ _ (State (h2 ++ [OMetric s0]) lg) Hc)).
  cbn [heap log].
  change (drop 1 (VRef <$> seq (length h) (S (length rest))))
    with (VRef <$> seq (S (length h)) (length rest)).
  rewrite (merge_state_eq _ (on_to s0 (device_of s)) _ rest); cbn [heap log].
  - rewrite list_insert_insert_eq.
    replace (length h2) with (length h2 + 0) at 1 by lia.
    rewrite insert_app_r. simpl. rewrite Hlen2. unfold h2.
    by rewrite <- app_assoc.
  - rewrite list_lookup_insert_eq; [done|]. rewrite length_app. simpl. lia.
  - apply Forall2_same_length_lookup_2.
    { by rewrite length_fmap, length_seq. }
    intros i v s' Hv Hs'. apply list_lookup_fmap_Some in Hv as (l' & -> & Hl').
    apply lookup_seq in Hl' as [-> ?]. eexists. split; [done|].
    rewrite list_lookup_insert_ne by lia.
    rewrite lookup_app_l by lia. unfold h2.
    rewrite lookup_app_r by lia.
    replace (S (length h) + i - length h) with (S i) by lia.
    rewrite fmap_cons. simpl. by rewrite list_lookup_fmap, Hs'.
Qed.

(** C9 (amended). For a world size above 1 and whatever the collective
    delivers, [get_synced_metric] changes the caller's metric only by
    running the metric's own [_prepare_for_merge_state] on it, in place; it
    leaves every other object and the log as they were; and a metric it
    returns is a newly allocated object.  When the collective delivers one
    metric per rank, it returns a new object holding the copy of rank 0's
    metric, moved to the caller's device and merged with the others. *)
Theorem get_synced_metric_ownership (world_size : Z) (m : loc) (s : MState)
    (st : state) (xs : list pickled) :
  (1 < world_size)%Z →
  heap st !! m = Some (OMetric s) →
  ∃ st' r,
    feed [xs] (get_synced_metric (VRef m) world_size st) = Some ((st', r), [])
    ∧ heap st' !! m = Some (OMetric (on_prepare_for_merge_state s))
    ∧ (∀ l, l < length (heap st) → l ≠ m → heap st' !! l = heap st !! l)
    ∧ log st' = log st
    ∧ (∀ v, r = inr v → ∃ l, v = VRef l ∧ length (heap st) ≤ l)
    ∧ (∀ s0 rest,
         xs = PkMetric <$> s0 :: rest →
         length xs = Z.to_nat world_size →
         r = inr (VRef (length (heap st) + length xs))
         ∧ heap st' !! (length (heap st) + length xs)
           = Some (OMetric
                     (on_merge_state
                        (on_to s0 (device_of (on_prepare_for_merge_state s)))
                        rest))).
Proof.
  intros Hws Hm. pose proof (lookup_lt_Some _ _ _ Hm) as Hlt.
  unfold get_synced_metric.
  rewrite (bind_Ret_inr _ _ _ _ _ (validate_large _ st Hws)).
  destruct (Z.eqb_spec world_size 1) as [|_]; [lia|].
  rewrite (sync_metric_object_metric _ _ _ _ _ Hm). simpl feed.
  set (prepared := on_prepare_for_merge_state s).
  set (st1 := State (<[m := OMetric prepared]> (heap st)) (log st)).
  assert (length (heap st1) = length (heap st)) as Hlen1
    by (simpl; by rewrite length_insert).
  match goal with |- context [bind ?rc ?k st1] =>
    assert (framed (length (heap st)) (bind rc k)
                   (λ v, ∃ l, v = VRef l ∧ length (heap st) ≤ l)) as Hframed
  end.
  { eapply framed_bind.
    - apply framed_receive, Forall_replicate. done.
    - intros gathered Hg. by apply framed_merge_gathered. }
  destruct (Hframed st1) as (st' & r & Heq & Htake & Hlen & Hlog & Hr); [lia|].
  exists st', r. rewrite Heq. split; [done|].
  assert (∀ l, l < length (heap st) → heap st' !! l = heap st1 !! l) as Hsame.
  { intros l Hl. rewrite <- (lookup_take_lt (heap st') (length (heap st))) by done.
    rewrite Htake. by apply lookup_take_lt. }
  split_and!.
  - rewrite Hsame by done. simpl. by apply list_lookup_insert_eq.
  - intros l Hl Hne. rewrite Hsame by done. simpl.
    by apply list_lookup_insert_ne.
  - done.
  - intros v ->. done.
  - intros s0 rest -> Hn. rewrite length_fmap in Hn.
    rewrite (bind_Ret_inr _ _ _ _ _
               (receive_metrics_eq _ (s0 :: rest) st1
                  ltac:(by rewrite length_replicate))) in Heq.
    rewrite Hlen1 in Heq. simpl length in Heq.
    rewrite <- Hlen1 in Heq.
    rewrite (merge_gathered_metrics_eq m prepared s0 rest) in Heq.
    2:{ simpl. by apply list_lookup_insert_eq. }
    simplify_eq/=. rewrite length_fmap, length_insert. split; [done|].
    rewrite lookup_app_r by (rewrite length_insert; lia).
    rewrite length_insert.
    replace (length (heap st) + S (length rest) - length (heap st))
      with (S (length rest)) by lia.
    rewrite lookup_cons_ne_0 by done. simpl.
    rewrite lookup_app_r by (rewrite length_fmap; lia).
    by rewrite length_fmap, Nat.sub_diag.
Qed.

(** ** The collection *)

Lemma fresh_0 v : fresh 0 v.
Proof. destruct v; simpl; lia. Qed.

Lemma framed_prepare v : framed 0 (_prepare_for_merge_state v) (λ _, True).
Proof.
  eapply framed_bind; [apply framed_metric_attr|].
  intros [l s] _. apply framed_store. lia.
Qed.

Lemma alloc_items_eq (items : list (string * MState)) :
  ∀ st, for_list (λ ks, bind (alloc (OMetric ks.2)) (λ l, ret (ks.1, l)))
                 items st
        = Ret (State (heap st ++ (OMetric ∘ snd <$> items)) (log st),
               inr (zip (items.*1) (seq (length (heap st)) (length items)))).
Proof.
  induction items as [|ks items IH]; intros st; csimpl.
  - rewrite app_nil_r. by destruct st.
  - unfold bind at 1. simpl. unfold bind at 1. rewrite IH. simpl.
    rewrite length_app, <- app_assoc. simpl.
    by replace (length (heap st) + 1) with (S (length (heap st))) by lia.
Qed.

Lemma loads_eq p st :
  ∃ ext l o,
    loads p st = Ret (State (heap st ++ ext) (log st), inr (VRef l))
    ∧ (heap st ++ ext) !! l = Some o ∧ loaded p o.
Proof.
  destruct p as [s|mutable items]; simpl.
  - exists [OMetric s], (length (heap st)), (OMetric s). split_and!; try done.
    by rewrite lookup_app_r, Nat.sub_diag by lia.
  - rewrite (bind_Ret_inr _ _ _ _ _ (alloc_items_eq items st)).
    eexists (_ ++ [_]), _, _. split_and!.
    + unfold bind, alloc. simpl. by rewrite <- app_assoc.
    + rewrite app_assoc. by rewrite lookup_app_r, Nat.sub_diag by (simpl; lia).
    + simpl. split; [done|]. apply fst_zip.
      by rewrite length_seq, length_fmap.
Qed.

Lemma for_list_loads_eq ps :
  ∀ st, ∃ ext vs,
    for_list loads ps st = Ret (State (heap st ++ ext) (log st), inr vs)
    ∧ Forall2 (λ p v, ∃ l o, v = VRef l ∧ (heap st ++ ext) !! l = Some o
                              ∧ loaded p o) ps vs.
Proof.
  induction ps as [|p ps IH]; intros st; simpl.
  - exists [], []. rewrite app_nil_r. split; [by destruct st|constructor].
  - destruct (loads_eq p st) as (ext1 & l & o & Heq & Hl & Hp).
    destruct (IH (State (heap st ++ ext1) (log st)))
      as (ext2 & vs & Heq2 & Hvs). simpl in *.
    exists (ext1 ++ ext2), (VRef l :: vs).
    rewrite (bind_Ret_inr _ _ _ _ _ Heq), (bind_Ret_inr _ _ _ _ _ Heq2).
    rewrite app_assoc. split; [done|]. constructor; [|done].
    exists l, o. split_and!; try done. by apply lookup_app_l_Some.
Qed.

(** The head of what [all_gather_object] leaves in the list: rank 0's
    object unpickled, or [None] if nothing was delivered. *)
Lemma receive_head n xs st :
  0 < n →
  ∃ st' gathered v0,
    receive (replicate n VNone) xs st = Ret (st', inr gathered)
    ∧ gathered !! 0 = Some v0
    ∧ match xs !! 0 with
      | Some p => ∃ o, deref (heap st') v0 = Some o ∧ loaded p o
      | None => v0 = VNone
      end.
Proof.
  intros Hn. unfold receive. rewrite length_replicate.
  destruct (for_list_loads_eq (take n xs) st) as (ext & vs & Heq & Hvs).
  rewrite (bind_Ret_inr _ _ _ _ _ Heq). unfold ret.
  destruct xs as [|p xs]; destruct n as [|n]; try lia; simpl in *.
  - inversion Hvs; subst. simpl. by eexists _, _, _.
  - inversion Hvs as [|? v0 ? vs' (l & o & -> & Hl & Hp) Hvs']; subst.
    eexists _, _, _. split_and!; [done..|]. simpl. eauto.
Qed.

Lemma framed_merge_collection (world_size : Z) rank_0_dict
    (list_of_metric_collections : list pyval) synced_metric_dict keys :
  framed 0
    (for_list
       (λ metric_key,
          bind (getitem rank_0_dict metric_key) (λ base_metric,
          bind (for_list (λ rank,
                            bind (index list_of_metric_collections rank)
                                 (λ c, getitem c metric_key))
                         (seq 1 (Z.to_nat world_size - 1)))
               (λ other_rank_metrics,
          bind (clone_metric base_metric) (λ c,
          bind (metric_attr c "to") (λ _,
          bind (device base_metric) (λ d,
          bind (to c d) (λ c,
          bind (merge_state c other_rank_metrics) (λ synced_metric,
            setitem synced_metric_dict metric_key synced_metric))))))))
       keys)
    (λ _, True).
Proof.
  eapply framed_mono; [|done].
  apply framed_for_list with (P := λ _, True). intros key _.
  eapply framed_bind; [apply framed_getitem|]. intros base _.
  eapply framed_bind.
  { apply framed_for_list with (P := λ _, True). intros rank _.
    eapply framed_bind; [apply framed_index|]. intros c _.
    apply framed_getitem. }
  intros others _.
  eapply framed_bind; [apply framed_deepcopy|]. intros c _.
  eapply framed_bind; [apply framed_metric_attr|]. intros _ _.
  eapply framed_bind; [apply framed_device|]. intros d _.
  eapply framed_bind; [apply framed_to, fresh_0|]. intros c' _.
  eapply framed_bind; [apply framed_merge_state, fresh_0|]. intros synced _.
  apply framed_setitem. lia.
Qed.

(** Up to its collective, [_sync_metric_object] either raises or gets as
    far as contributing a pickle. *)
Lemma sync_metric_object_cases {B} world_size v st :
  (∃ st1 e, ∀ f : list pyval → M B,
      bind (_sync_metric_object v world_size) f st = Ret (st1, inl e))
  ∨ (∃ st1 p, ∀ f : list pyval → M B,
      bind (_sync_metric_object v world_size) f st
      = Gather AllGatherObject p
          (λ xs, bind (receive (replicate (Z.to_nat world_size) VNone) xs) f
                      st1)).
Proof.
  unfold _sync_metric_object.
  match goal with |- context [bind (lookup_obj v) (λ o, bind (@?prep o) ?k)] =>
    assert (∀ o, framed 0 (prep o) (λ _, True)) as Hprep
  end.
  { intros [[| |]|]; try apply framed_raise.
    - apply framed_prepare.
    - eapply framed_bind; [|intros; by apply framed_ret].
      apply framed_for_list with (P := λ _, True). intros; apply framed_prepare. }
  destruct (Hprep (deref (heap st) v) st) as (st1 & r & Heq & _); [lia|].
  destruct r as [e|[]].
  { left. exists st1, e. intros f.
    rewrite (bind_bind_Ret_inr _ _ _ st st (deref (heap st) v)) by done.
    by rewrite (bind_bind_Ret_inl _ _ _ _ _ _ Heq). }
  unfold all_gather_object.
  destruct (pickle (heap st1) v) as [p|] eqn:Hp.
  - right. exists st1, p. intros f.
    rewrite (bind_bind_Ret_inr _ _ _ st st (deref (heap st) v)) by done.
    rewrite (bind_bind_Ret_inr _ _ _ _ _ _ Heq).
    erewrite bind_bind_Ret_inr; [reflexivity|].
    unfold dumps. by rewrite Hp.
  - left. eexists st1, _. intros f.
    rewrite (bind_bind_Ret_inr _ _ _ st st (deref (heap st) v)) by done.
    rewrite (bind_bind_Ret_inr _ _ _ _ _ _ Heq).
    erewrite bind_bind_Ret_inl; [reflexivity|].
    unfold dumps. by rewrite Hp.
Qed.

(** C10. For a world size above 1, [get_synced_metric_collection] either
    raises while preparing its input, before the collective, or takes part
    in the one collective and then: it returns something other than [None]
    only if rank 0's object is a [MutableMapping]; and if rank 0's object
    is not one, it returns [None] and does not raise. *)
Theorem get_synced_metric_collection_fallthrough (world_size : Z)
    (metric_collection : pyval) (st : state) (xs : list pickled) :
  (1 < world_size)%Z →
  ∃ st' r rest,
    feed [xs] (get_synced_metric_collection metric_collection world_size st)
    = Some ((st', r), rest)
    ∧ ((rest = [xs] ∧ ∃ e, r = inl e)
       ∨ (rest = []
          ∧ (∀ v, r = inr v → v ≠ VNone →
                  ∃ items, xs !! 0 = Some (PkMapping true items))
          ∧ ((∀ items, xs !! 0 ≠ Some (PkMapping true items)) →
             r = inr VNone))).
Proof.
  intros Hws. unfold get_synced_metric_collection.
  rewrite (bind_Ret_inr _ _ _ _ _ (validate_large _ st Hws)).
  destruct (Z.eqb_spec world_size 1) as [|_]; [lia|].
  destruct (sync_metric_object_cases (B := pyval) world_size
              metric_collection st) as [(st1 & e & Heq)|(st1 & p & Heq)];
    rewrite Heq; simpl feed.
  { exists st1, (inl e), [xs]. split; [done|]. left. eauto. }
  destruct (receive_head (Z.to_nat world_size) xs st1)
    as (st2 & gathered & v0 & Hrecv & Hv0 & Hhead); [lia|].
  rewrite (bind_Ret_inr _ _ _ _ _ Hrecv).
  rewrite (bind_Ret_inr _ _ _ st2 v0) by (unfold index; by rewrite Hv0).
  rewrite (bind_Ret_inr _ _ _ st2 (deref (heap st2) v0)) by done.
  destruct (deref (heap st2) v0) as [[s0|[] items|]|] eqn:Hderef;
    try (eexists st2, (inr VNone), []; split; [done|]; right;
         split_and!; [done| |done]; by intros v [= <-]).
  assert (∃ items0, xs !! 0 = Some (PkMapping true items0)) as Hx0.
  { destruct (xs !! 0) as [p0|] eqn:Hx0; [|by subst v0].
    destruct Hhead as (o' & Ho' & Hl). simplify_eq.
    destruct p0 as [|mutable items0]; simpl in Hl; [done|].
    destruct Hl as [-> _]. eauto. }
  match goal with |- context [feed [] (?prog st2)] =>
    assert (framed 0 prog (λ _, True)) as Hloop
  end.
  { eapply framed_bind; [apply framed_alloc|]. intros d _.
    eapply framed_bind; [apply framed_merge_collection|]. intros _ _.
    by apply framed_ret. }
  destruct (Hloop st2) as (st3 & r & Heq3 & _); [lia|].
  exists st3, r, []. rewrite Heq3. split; [done|]. right.
  split_and!; [done|by intros|].
  intros Hno. destruct Hx0 as [items0 Hx0]. by destruct (Hno items0).
Qed.

(** ** World size 1 *)

(** C6 (amended). With world size 1, [get_synced_metric] and
    [get_synced_metric_collection] return the very object they were given,
    not wrapped in anything; the store is unchanged, one warning is logged,
    and no collective is called. *)
Theorem world_size_one_returns_input (v : pyval) (st : state) :
  get_synced_metric v 1 st
  = Ret (State (heap st) (log st ++ [LogWarning world_size_one_msg]), inr v)
  ∧ get_synced_metric_collection v 1 st
    = Ret (State (heap st) (log st ++ [LogWarning world_size_one_msg]), inr v)
  ∧ (∀ answer,
       calls_issued answer (get_synced_metric v 1 st) = 0
       ∧ calls_issued answer (get_synced_metric_collection v 1 st) = 0).
Proof. done. Qed.

End WithMetric.

(** C6, as stated, fails: with world size 1 the metric at address 0 comes
    back as itself; the result is not a list that holds it. *)
Lemma world_size_one_not_a_bundle :
  get_synced_metric (VRef 0) 1 cat_store
  = Ret (State [OMetric cat_input] [LogWarning world_size_one_msg],
         inr (VRef 0))
  ∧ ¬ wrapped_as_bundle (VRef 0)
        (State [OMetric cat_input] [LogWarning world_size_one_msg],
         inr (VRef 0)).
Proof.
  split; [done|]. intros (l & b & ? & Hb & Hl); simplify_eq/=.
Qed.

(** C9, as stated, fails: after the call the caller's metric, at address
    0, holds one concatenated buffer where it held two buffers. *)
Lemma get_synced_metric_changes_input :
  ∃ st',
    feed [cat_answer] (get_synced_metric (VRef 0) 2 cat_store)
    = Some ((st', inr (VRef 3)), [])
    ∧ heap cat_store !! 0 = Some (OMetric (CatState Cpu [[1; 2]; [3]]%Z))
    ∧ heap st' !! 0 = Some (OMetric (CatState Cpu [[1; 2; 3]]%Z))
    ∧ heap st' !! 0 ≠ heap cat_store !! 0.
Proof. eexists. split; [vm_compute; reflexivity|]. done. Qed.

Lemma get_synced_metric_ownership_witness :
  ∃ st' r,
    feed [cat_answer] (get_synced_metric (VRef 0) 2 cat_store)
    = Some ((st', r), [])
    ∧ heap st' !! 0 = Some (OMetric (cat_prepare cat_input))
    ∧ r = inr (VRef 3)
    ∧ heap st' !! 3
      = Some (OMetric (CatState Cpu [[1; 2; 3]; [9]]%Z)).
Proof.
  destruct (@get_synced_metric_ownership CatMetric 2 0 cat_input cat_store
              cat_answer
              ltac:(lia) eq_refl)
    as (st' & r & Hfeed & Hm & _ & _ & _ & Hgood).
  exists st', r.
  destruct (Hgood (cat_prepare cat_input) [CatState (Cuda 0) [[9%Z]]]
              eq_refl eq_refl) as [-> Hres].
  split_and!; done.
Defined.

Lemma get_synced_metric_collection_fallthrough_witness :
  ∃ st' r rest,
    feed [cat_answer] (get_synced_metric_collection (VRef 0) 2 cat_store)
    = Some ((st', r), rest)
    ∧ rest = [] ∧ r = inr VNone.
Proof.
  destruct (@get_synced_metric_collection_fallthrough CatMetric 2 (VRef 0)
              cat_store cat_answer ltac:(lia))
    as (st' & r & rest & Hfeed & [[Hrest _]|(Hrest & _ & Hnone)]).
  - exfalso. vm_compute in Hfeed. by simplify_eq.
  - exists st', r, rest. split_and!; [done..|]. apply Hnone. by intros.
Defined.

(** Two ranks in lock-step, each with its own store: both end with a new
    metric at address 3 that holds rank 0's buffer followed by rank 1's,
    on the rank's own device, and with their own metric prepared. *)
Example two_ranks_get_synced_metric :
  run_world [get_synced_metric (VRef 0) 2 cat_store;
             get_synced_metric (VRef 0) 2 cat_store_1]
  = Some
      [(State [OMetric (CatState Cpu [[1; 2; 3]]%Z);
               OMetric (CatState Cpu [[1; 2; 3]]%Z);
               OMetric (CatState (Cuda 0) [[9]]%Z);
               OMetric (CatState Cpu [[1; 2; 3]; [9]]%Z)] [],
        inr (VRef 3));
       (State [OMetric (CatState (Cuda 0) [[9]]%Z);
               OMetric (CatState Cpu [[1; 2; 3]]%Z);
               OMetric (CatState (Cuda 0) [[9]]%Z);
               OMetric (CatState (Cuda 0) [[1; 2; 3]; [9]]%Z)] [],
        inr (VRef 3))].
Proof. reflexivity. Qed.

End ToolkitFacts.

(* ================================================================== *)
(** * Facts about the state-tree synchronisation *)
(* ================================================================== *)

Module SynclibFacts.
Import Collective CollectiveFacts Synclib.

(** ** Worlds of the protocol's monad *)

Lemma fmap_const_replicate {X A} (a : A) (xs : list X) :
  (λ _, a) <$> xs = replicate (length xs) a.
Proof. induction xs as [|x xs IH]; [done|]. csimpl. by rewrite IH. Qed.

(** If every rank gets [a] from its first part, the world goes on with
    every rank's second part run on [a]. *)
Lemma run_world_ebind {X A B} (g : X → CE A) (f : X → A → CE B) xs a :
  run_world (g <$> xs) = Some (replicate (length xs) (inr a)) →
  run_world ((λ x, bind (g x) (f x)) <$> xs)
  = run_world ((λ x, f x a) <$> xs).
Proof.
  intros Hg. exact (run_world_bind_uniform g (λ x, resume (f x)) xs _ Hg).
Qed.

Lemma run_world_eret {X A} (a : A) (xs : list X) :
  run_world ((λ _, ret a) <$> xs)
  = Some (replicate (length xs) (inr a) : list (error + A)).
Proof.
  etrans; [exact (run_world_ret (λ _, inr a) xs)|].
  by rewrite fmap_const_replicate.
Qed.

(** Every rank receives the rank-ordered list of what the ranks
    contributed. *)
Lemma run_world_all_gather {X A} c (enc : A → payload) dec (x : X → A) xs :
  (∀ a, dec (enc a) = Some a) →
  run_world ((λ i, all_gather c enc dec (x i)) <$> xs)
  = Some (replicate (length xs) (inr (x <$> xs))).
Proof.
  intros Hdec. unfold all_gather.
  etrans; [exact (run_world_gather c (λ i, enc (x i)) _ xs)|]. cbv beta.
  rewrite (list_fmap_compose x enc), mapM_fmap_Some by done.
  apply run_world_eret.
Qed.


(** ** Metadata *)

Lemma sync_list_length_world (lists : list (list tensor)) :
  run_world (_sync_list_length <$> lists)
  = Some (replicate (length lists) (inr (length <$> lists))).
Proof. by apply (run_world_all_gather _ PLen as_len length). Qed.

(** C3. Whatever the local list lengths, every rank gets from
    [_sync_list_length] the sequence of all ranks' lengths, in rank order;
    an empty list counts as 0. *)
Theorem sync_list_length_all_ranks (lists : list (list tensor)) :
  run_world (_sync_list_length <$> lists)
  = Some (replicate (length lists) (inr (length <$> lists))).
Proof. apply sync_list_length_world. Qed.

Lemma sync_dtype_and_shape_world (inputs : list (option tensor)) :
  run_world (_sync_dtype_and_shape <$> inputs)
  = Some (replicate (length inputs)
            (reconcile (option_map descriptor <$> inputs))).
Proof.
  unfold _sync_dtype_and_shape.
  etrans; [apply (run_world_ebind _ _ inputs (option_map descriptor <$> inputs))|].
  - by apply (run_world_all_gather _ PDesc as_desc (option_map descriptor)).
  - etrans; [exact (run_world_ret (λ _, reconcile _) inputs)|].
    by rewrite fmap_const_replicate.
Qed.

(** The first concrete descriptor is that of the lowest rank that holds a
    tensor. *)
Lemma first_concrete_spec (inputs : list (option tensor)) :
  (first_concrete (option_map descriptor <$> inputs) = None
   ∧ ∀ r, r < length inputs → inputs !! r = Some None)
  ∨ (∃ r t, inputs !! r = Some (Some t)
            ∧ (∀ r', r' < r → inputs !! r' = Some None)
            ∧ first_concrete (option_map descriptor <$> inputs)
              = Some (t_dtype t, t_shape t)).
Proof.
  induction inputs as [|[t|] inputs IH]; csimpl.
  - left. split; [done|]. intros; lia.
  - right. exists 0, t. split_and!; [done| |done]. intros; lia.
  - destruct IH as [[Hnone Hall]|(r & t & Hr & Hlow & Hres)].
    + left. split; [done|]. intros [|r] Hlt; simpl; [done|]. apply Hall. lia.
    + right. exists (S r), t. split_and!; [done| |done].
      intros [|r'] Hlt; simpl; [done|]. apply Hlow. lia.
Qed.

Lemma concrete_descriptors (inputs : list (option tensor)) d :
  d ∈ omap id (option_map descriptor <$> inputs)
  ↔ ∃ i t, inputs !! i = Some (Some t) ∧ d = descriptor t.
Proof.
  rewrite list_elem_of_omap. split.
  - intros (od & Hin & Hod). simpl in Hod. subst od.
    apply list_elem_of_fmap in Hin as ([t|] & Hd & Hin); simplify_eq/=.
    apply list_elem_of_lookup in Hin as [i Hi]. eauto.
  - intros (i & t & Hi & ->). exists (Some (descriptor t)). split; [|done].
    apply list_elem_of_fmap. exists (Some t). split; [done|].
    by eapply list_elem_of_lookup_2.
Qed.


(** With one, every rank finds it in what it gathered. *)
Lemma reconcile_conflict (inputs : list (option tensor)) i j ti tj :
  inputs !! i = Some (Some ti) →
  inputs !! j = Some (Some tj) →
  t_dtype ti ≠ t_dtype tj →
  reconcile (option_map descriptor <$> inputs)
  = inl ShapeReconciliationFailure.
Proof.
  intros Hi Hj Hne. unfold reconcile.
  destruct (first_concrete_spec inputs)
    as [[_ Hall]|(r & t & Hr & _ & ->)].
  { rewrite Hall in Hi by (by eapply lookup_lt_Some). done. }
  rewrite decide_False; [done|]. rewrite Forall_forall. intros Hall.
  apply Hne. trans (t_dtype t).
  - apply (Hall (descriptor ti)), concrete_descriptors. eauto.
  - symmetry. apply (Hall (descriptor tj)), concrete_descriptors. eauto.
Qed.


(** ** Exchange *)






(** A buffer entry where two ranks' tensors differ in dtype: no payload
    is exchanged. *)
Lemma sync_buffer_conflict world_size (bs : list (option tensor)) i j ti tj :
  bs !! i = Some (Some ti) →
  bs !! j = Some (Some tj) →
  t_dtype ti ≠ t_dtype tj →
  run_world (sync_buffer world_size <$> bs)
  = Some (replicate (length bs) (inl ShapeReconciliationFailure)).
Proof.
  intros Hi Hj Hne. unfold sync_buffer.
  etrans.
  { apply (run_world_bind _sync_dtype_and_shape _ bs).
    rewrite sync_dtype_and_shape_world.
    by rewrite (reconcile_conflict bs i j ti tj). }
  rewrite zip_with_replicate_r by done.
  etrans; [exact (run_world_ret (λ _, inl ShapeReconciliationFailure) bs)|].
  by rewrite fmap_const_replicate.
Qed.

(** C8. Where two ranks hold tensors of different dtypes at a buffer
    path, reconciliation adopts neither: [_sync_dtype_and_shape] raises
    [ShapeReconciliationFailure] on every rank, and so does the exchange of
    the entry, before any payload moves. *)
Theorem sync_dtype_and_shape_conflict (inputs : list (option tensor))
    (i j : nat) (ti tj : tensor) :
  inputs !! i = Some (Some ti) →
  inputs !! j = Some (Some tj) →
  t_dtype ti ≠ t_dtype tj →
  run_world (_sync_dtype_and_shape <$> inputs)
  = Some (replicate (length inputs) (inl ShapeReconciliationFailure))
  ∧ run_world (sync_buffer (length inputs) <$> inputs)
    = Some (replicate (length inputs) (inl ShapeReconciliationFailure)).
Proof.
  intros Hi Hj Hne. split.
  - rewrite sync_dtype_and_shape_world.
    by rewrite (reconcile_conflict inputs i j ti tj).
  - by apply (sync_buffer_conflict _ inputs i j ti tj).
Qed.







(** ** Trees, plans and paths *)










(** ** Reassembly *)










(** ** Exchange of a whole plan *)








(** The identity pass of §5: a group of one returns its tree as a bundle
    of one, without a collective. *)
Lemma sync_states_world_size_one (t : state_tree) (plan : list entry) :
  sync_states 1 t plan = Ret (inr [t]).
Proof. reflexivity. Qed.



(** ** The tests, and the claims at concrete inputs *)




(** [_test_sync_list_length]: every rank gets [[1, 0, 4, 3]]. *)
Example test_sync_list_length :
  run_world (_sync_list_length <$> length_test_lists)
  = Some (replicate 4 (inr [1; 0; 4; 3])).
Proof. reflexivity. Qed.

(** [_test_sync_dtype_and_shape]: ranks 0 and 1 hold [float64] scalars,
    rank 2 nothing; then no rank holds anything. *)
Example test_sync_dtype_and_shape :
  run_world (_sync_dtype_and_shape <$> dtype_test_inputs)
  = Some (replicate 3 (inr (Some (float64, []))))
  ∧ run_world (_sync_dtype_and_shape <$> [None; None; None])
    = Some (replicate 3 (inr None)).
Proof. split; reflexivity. Qed.

(** [_test_empty_tensor_list_sync_state]: slot 0 has two elements, slot 1
    none. *)
Example test_empty_tensor_list :
  run_world (sync_list 2 <$> list_test_lists)
  = Some (replicate 2 (inr list_test_lists)).
Proof. reflexivity. Qed.

(** [_test_complex_mixed_state]: slot 0 has two elements, slot 1
    three. *)
Example test_complex_mixed_state :
  run_world (sync_list 2 <$> mixed_test_lists)
  = Some (replicate 2 (inr mixed_test_lists)).
Proof. reflexivity. Qed.








Lemma sync_dtype_and_shape_conflict_witness :
  run_world (_sync_dtype_and_shape <$> conflict_inputs)
  = Some (replicate 2 (inl ShapeReconciliationFailure))
  ∧ run_world (sync_buffer 2 <$> conflict_inputs)
    = Some (replicate 2 (inl ShapeReconciliationFailure)).
Proof.
  apply (sync_dtype_and_shape_conflict conflict_inputs 0 1
           (Tensor float32 [2] [0; 0]%Z) (Tensor int64 [2] [5; 6]%Z)).
  - reflexivity.
  - reflexivity.
  - discriminate.
Defined.

End SynclibFacts.

(* ================================================================== *)
(** * Facts about the rest of [toolkit.py] *)
(* ================================================================== *)

Module ToolkitRestFacts.
Import Collective CollectiveFacts Toolkit ToolkitFacts ToolkitRest.

(** The statements below are about any metric class; the list-state
    metric is named where it is meant. *)
#[local] Remove Hints CatMetric CatOps : typeclass_instances.

(** ** Dictionaries *)

Section Dict.
Context {V : Type}.
Implicit Types (d kvs : list (string * V)).

Lemma dict_get_None key d : dict_get key d = None ↔ key ∉ d.*1.
Proof.
  induction d as [|[k v] d IH]; simpl.
  - split; [intros _; apply not_elem_of_nil|done].
  - rewrite not_elem_of_cons. case_decide as Hk.
    + split; [done|]. by intros [? _].
    + rewrite IH. split; [by split|by intros [_ ?]].
Qed.

Lemma dict_get_elem key v d :
  NoDup d.*1 → (key, v) ∈ d → dict_get key d = Some v.
Proof.
  induction d as [|[k v'] d IH]; simpl; intros Hnd Hin.
  - by apply elem_of_nil in Hin.
  - apply NoDup_cons in Hnd as [Hk Hnd]. apply elem_of_cons in Hin as [?|Hin].
    + simplify_eq. by rewrite decide_True.
    + case_decide as Heq; [|by apply IH]. subst. destruct Hk.
      apply list_elem_of_fmap. by exists (key, v).
Qed.

Lemma dict_set_fresh key v d :
  key ∉ d.*1 → dict_set key v d = d ++ [(key, v)].
Proof.
  induction d as [|[k v'] d IH]; simpl; [done|].
  rewrite not_elem_of_cons. intros [? ?].
  rewrite decide_False by done. by rewrite IH.
Qed.

Lemma dict_set_present key v d :
  key ∈ d.*1 → (dict_set key v d).*1 = d.*1.
Proof.
  induction d as [|[k v'] d IH]; simpl; [by intros ?%elem_of_nil|].
  intros Hin. case_decide; [done|]. csimpl. f_equal. apply IH.
  apply elem_of_cons in Hin as [?|?]; [congruence|done].
Qed.

Lemma dict_get_set key key' v d :
  dict_get key' (dict_set key v d)
  = if decide (key = key') then Some v else dict_get key' d.
Proof.
  induction d as [|[k v'] d IH]; simpl.
  - repeat case_decide; congruence.
  - destruct (decide (k = key)) as [->|Hk]; simpl.
    + by destruct (decide (key = key')).
    + rewrite IH. destruct (decide (k = key')) as [->|?]; [|done].
      by rewrite decide_False.
Qed.

Lemma dict_set_keys_NoDup key v d : NoDup d.*1 → NoDup (dict_set key v d).*1.
Proof.
  intros Hnd. destruct (decide (key ∈ d.*1)) as [Hin|Hout].
  - by rewrite dict_set_present.
  - rewrite dict_set_fresh, fmap_app by done. simpl.
    apply NoDup_app. split_and!; [done| |apply NoDup_singleton].
    intros k ? ->%list_elem_of_singleton. done.
Qed.

Lemma dict_set_keys_elem key key' v d :
  key' ∈ (dict_set key v d).*1 ↔ key' = key ∨ key' ∈ d.*1.
Proof.
  destruct (decide (key ∈ d.*1)) as [Hin|Hout].
  - rewrite dict_set_present by done. split; [by right|].
    by intros [->|?].
  - rewrite dict_set_fresh, fmap_app, elem_of_app by done. simpl.
    rewrite list_elem_of_singleton. tauto.
Qed.

Lemma length_dict_set key v d :
  length (dict_set key v d)
  = if decide (key ∈ d.*1) then length d else S (length d).
Proof.
  case_decide as Hin.
  - rewrite <- (length_fmap fst), dict_set_present by done.
    by rewrite length_fmap.
  - rewrite dict_set_fresh, length_app by done. simpl. lia.
Qed.

Lemma dict_fold_cons kv kvs d :
  dict_fold d (kv :: kvs) = dict_fold (dict_set kv.1 kv.2 d) kvs.
Proof. done. Qed.

Lemma dict_fold_NoDup kvs : ∀ d, NoDup d.*1 → NoDup (dict_fold d kvs).*1.
Proof.
  induction kvs as [|kv kvs IH]; intros d Hd; [done|].
  rewrite dict_fold_cons. by apply IH, dict_set_keys_NoDup.
Qed.

Lemma dict_fold_keys_elem key kvs :
  ∀ d, key ∈ (dict_fold d kvs).*1 ↔ key ∈ d.*1 ∨ key ∈ kvs.*1.
Proof.
  induction kvs as [|kv kvs IH]; intros d.
  - rewrite fmap_nil, elem_of_nil. unfold dict_fold. simpl. tauto.
  - rewrite dict_fold_cons, IH, dict_set_keys_elem, fmap_cons, elem_of_cons.
    tauto.
Qed.

Lemma dict_fold_get_other key kvs :
  key ∉ kvs.*1 → ∀ d, dict_get key (dict_fold d kvs) = dict_get key d.
Proof.
  induction kvs as [|kv kvs IH]; [done|].
  rewrite fmap_cons, not_elem_of_cons. intros [Hne Hout] d.
  rewrite dict_fold_cons, IH by done.
  rewrite dict_get_set. by rewrite decide_False.
Qed.

(** The last entry under a key is the one that stays. *)
Lemma dict_fold_get_last key v kvs :
  ∀ i d, kvs !! i = Some (key, v) →
    (∀ j kv, i < j → kvs !! j = Some kv → kv.1 ≠ key) →
    dict_get key (dict_fold d kvs) = Some v.
Proof.
  induction kvs as [|kv kvs IH]; intros [|i] d Hi Hlast; try done;
    rewrite dict_fold_cons; simpl in Hi; simplify_eq.
  - rewrite (dict_fold_get_other key kvs).
    + rewrite dict_get_set. by rewrite decide_True.
    + intros ([k' v'] & ? & [j Hj]%list_elem_of_lookup)%list_elem_of_fmap.
      apply (Hlast (S j) (k', v')); [lia|done|done].
  - apply (IH i); [done|]. intros j kv' ? Hj. apply (Hlast (S j)); [lia|done].
Qed.

Lemma dict_fold_distinct kvs :
  ∀ d, NoDup (d.*1 ++ kvs.*1) → dict_fold d kvs = d ++ kvs.
Proof.
  induction kvs as [|kv kvs IH]; intros d Hnd.
  - unfold dict_fold. simpl. by rewrite app_nil_r.
  - rewrite dict_fold_cons. rewrite fmap_cons in Hnd.
    apply NoDup_app in Hnd as (Hd & Hdisj & Hkvs).
    apply NoDup_cons in Hkvs as [Hkv Hkvs].
    assert (kv.1 ∉ d.*1) as Hout.
    { intros Hin. apply (Hdisj _ Hin). by left. }
    rewrite dict_set_fresh by done. destruct kv as [k v]. simpl in *.
    rewrite IH; [by rewrite <- app_assoc|].
    rewrite fmap_app. simpl. rewrite <- app_assoc. simpl.
    apply NoDup_app. split_and!; [done| |by apply NoDup_cons].
    intros k' Hin. by apply Hdisj.
Qed.

Lemma length_dict_fold_le kvs :
  ∀ d, length (dict_fold d kvs) ≤ length d + length kvs.
Proof.
  induction kvs as [|kv kvs IH]; intros d; [simpl; lia|].
  rewrite dict_fold_cons. etrans; [apply IH|].
  rewrite length_dict_set. simpl. case_decide; lia.
Qed.

Lemma length_dict_fold_full kvs :
  ∀ d, NoDup d.*1 →
    length (dict_fold d kvs) = length d + length kvs →
    NoDup (d.*1 ++ kvs.*1).
Proof.
  induction kvs as [|kv kvs IH]; intros d Hd Hlen.
  - by rewrite fmap_nil, app_nil_r.
  - rewrite dict_fold_cons in Hlen.
    pose proof (length_dict_fold_le kvs (dict_set kv.1 kv.2 d)) as Hle.
    rewrite length_dict_set in Hle. simpl in Hlen.
    case_decide as Hin; [lia|].
    specialize (IH (dict_set kv.1 kv.2 d) (dict_set_keys_NoDup _ _ _ Hd)).
    rewrite dict_set_fresh, fmap_app, <- app_assoc in IH by done.
    rewrite dict_set_fresh in Hlen by done.
    apply IH. rewrite Hlen, length_app. simpl. lia.
Qed.

End Dict.

(** ** [classwise_converter] *)

Section Classwise.
Context {V : Type}.
Implicit Types (input : list V) (labels : list string).

Lemma labelled_inj (name : string) : Inj (=) (=) (λ label, name +:+ "_" +:+ label).
Proof.
  intros l1 l2 Heq. apply (String.app_inj name) in Heq.
  by apply (String.app_inj "_") in Heq.
Qed.

Lemma numbered_keys_NoDup (name : string) input :
  ∀ n, NoDup (imap (λ i (val : V), (name +:+ "_" +:+ pretty (n + i), val))
                   input).*1.
Proof.
  intros n. rewrite fmap_imap. apply NoDup_alt. intros i j k.
  rewrite !list_lookup_imap. intros Hi Hj. rewrite <- Hj in Hi.
  destruct (input !! i), (input !! j); simpl in Hi; try done.
  injection Hi as Hi. apply labelled_inj in Hi. apply (inj pretty) in Hi. lia.
Qed.

Lemma labelled_keys (name : string) labels :
  ∀ input, length labels = length input →
    (zip_with (λ label (val : V), (name +:+ "_" +:+ label, val))
              labels input).*1
    = (λ label, name +:+ "_" +:+ label) <$> labels.
Proof.
  induction labels as [|l labels IH]; intros [|v input] Hlen;
    simplify_eq/=; [done|].
  f_equal. by apply IH.
Qed.

(** X1. Without labels [classwise_converter] raises the [TypeError] of
    iterating over it for a tensor without a dimension.  For a tensor with
    a first dimension it does not raise, whatever the number of classes:
    it gives one entry per class, in order, entry [i] under the key
    [name_i]; looking that key up gives slice [i] of the input, and no key
    is there for an [i] beyond the last class. *)
Theorem classwise_converter_numbered (name : string) :
  (∃ msg, classwise_converter (V := V) ZeroDim name None
          = inl (FromTensor (TypeError msg)))
  ∧ ∀ input : list V,
      classwise_converter (Slices input) name None
      = inr (imap (λ i val, (name +:+ "_" +:+ pretty i, val)) input)
      ∧ (∀ i, dict_get (name +:+ "_" +:+ pretty i)
                (imap (λ i val, (name +:+ "_" +:+ pretty i, val)) input)
              = input !! i).
Proof.
  split; [by eexists|]. intros input.
  pose proof (numbered_keys_NoDup name input 0) as Hnd. simpl in Hnd.
  split.
  - unfold classwise_converter, dict_of. simpl. f_equal.
    by rewrite dict_fold_distinct.
  - intros i. destruct (input !! i) as [v|] eqn:Hi.
    + apply dict_get_elem; [done|].
      apply list_elem_of_lookup. exists i.
      by rewrite list_lookup_imap, Hi.
    + apply dict_get_None. rewrite fmap_imap.
      intros [j Hj]%list_elem_of_lookup. rewrite list_lookup_imap in Hj.
      destruct (input !! j) eqn:Hj'; simpl in Hj; [|done].
      injection Hj as Hj. apply labelled_inj in Hj. apply (inj pretty) in Hj.
      congruence.
Qed.

(** X2. With as many labels as classes, [classwise_converter] gives a
    dictionary whose keys are the [name_label], each once; where a label
    is listed more than once, its key holds the slice of the last class
    so labelled. *)
Theorem classwise_converter_last_label_wins (input : list V) (name : string)
    (labels : list string) :
  length labels = length input →
  ∃ d, classwise_converter (Slices input) name (Some labels) = inr d
    ∧ NoDup d.*1
    ∧ (∀ key, key ∈ d.*1
              ↔ ∃ label, label ∈ labels ∧ key = name +:+ "_" +:+ label)
    ∧ (∀ i label, labels !! i = Some label →
         (∀ j, i < j → labels !! j ≠ Some label) →
         dict_get (name +:+ "_" +:+ label) d = input !! i).
Proof.
  intros Hlen. unfold classwise_converter. simpl.
  rewrite decide_False by (intros ?; congruence).
  eexists. split; [done|]. unfold dict_of. split_and!.
  - apply dict_fold_NoDup. constructor.
  - intros key. rewrite dict_fold_keys_elem, labelled_keys by done.
    rewrite fmap_nil, elem_of_nil, list_elem_of_fmap.
    split; [intros [[]|(l & ? & ?)]; eauto|intros (l & ? & ?); eauto].
  - intros i label Hi Hlast.
    destruct (lookup_lt_is_Some_2 input i) as [v Hv].
    { rewrite <- Hlen. by eapply lookup_lt_Some. }
    rewrite Hv. apply dict_fold_get_last with (i := i).
    + by rewrite lookup_zip_with, Hi, Hv.
    + intros j [k v'] Hj Hkv Hk. rewrite lookup_zip_with in Hkv.
      destruct (labels !! j) as [l|] eqn:Hl; simpl in Hkv; [|done].
      destruct (input !! j); simplify_eq/=. by apply (Hlast j).
Qed.

(** X3. With labels, [classwise_converter] raises the [IndexError] of
    [input.size(dim=0)] for a tensor without a dimension, whatever the
    labels.  For a tensor with a first dimension it raises exactly when
    the number of labels differs from the number of classes, and what it
    raises is a [ValueError]; it gives one entry per class exactly when,
    besides, no label is listed twice; the entries are then the labelled
    slices, in order. *)
Theorem classwise_converter_one_entry_per_class (name : string)
    (labels : list string) :
  (∃ msg, classwise_converter (V := V) ZeroDim name (Some labels)
          = inl (FromTensor (IndexError msg)))
  ∧ ∀ input : list V,
      ((∃ e, classwise_converter (Slices input) name (Some labels) = inl e)
       ↔ length labels ≠ length input)
      ∧ (∀ e, classwise_converter (Slices input) name (Some labels) = inl e →
              ∃ msg, e = ValueError msg)
      ∧ ((∃ d, classwise_converter (Slices input) name (Some labels) = inr d
               ∧ length d = length input)
         ↔ length labels = length input ∧ NoDup labels)
      ∧ (length labels = length input → NoDup labels →
         classwise_converter (Slices input) name (Some labels)
         = inr (zip_with (λ label val, (name +:+ "_" +:+ label, val))
                         labels input)).
Proof.
  split; [by eexists|]. intros input.
  unfold classwise_converter. simpl.
  destruct (decide (length input ≠ length labels)) as [Hne|Heq].
  - split_and!.
    + split; [intros _; congruence|eauto].
    + intros e [= <-]. by eexists.
    + split; [by intros (d & ? & _)|intros [? _]; congruence].
    + intros ?; congruence.
  - assert (length labels = length input) as Hlen.
    { destruct (decide (length labels = length input)); [done|].
      destruct Heq. congruence. }
    assert (NoDup labels
            ↔ NoDup (zip_with (λ label (val : V), (name +:+ "_" +:+ label, val))
                              labels input).*1) as Hnd.
    { rewrite labelled_keys by done. symmetry.
      apply (NoDup_fmap (λ label, name +:+ "_" +:+ label)). }
    split_and!.
    + split; [by intros [? ?]|done].
    + by intros e.
    + split.
      * intros (d & [= <-] & Hd). split; [done|]. apply Hnd.
        apply (length_dict_fold_full _ []); [constructor|].
        unfold dict_of in Hd. rewrite Hd, length_zip_with. simpl. lia.
      * intros [_ Hl]. eexists. split; [done|]. unfold dict_of.
        rewrite dict_fold_distinct by (by apply Hnd).
        simpl. rewrite length_zip_with. lia.
    + intros _ Hl. f_equal. unfold dict_of.
      by rewrite dict_fold_distinct by (by apply Hnd).
Qed.

End Classwise.

(** ** A group that meets at one collective *)

Section Coll.
Context {P : Type}.

(** Every rank contributes to one collective and then finishes on what
    the collective delivers. *)
Lemma run_world_one_gather {X A} c (prog : X → coll P A) (x : X → P)
    (res : X → A) (xs : list X) :
  (∀ i, i ∈ xs →
     ∃ k, prog i = Gather c (x i) k ∧ k (x <$> xs) = Ret (res i)) →
  run_world (prog <$> xs) = Some (res <$> xs).
Proof.
  intros H.
  set (k := λ i, match prog i with
                 | Gather _ _ k => k
                 | Ret a => λ _, Ret a
                 end).
  trans (run_world ((λ i, Gather c (x i) (k i)) <$> xs)).
  { f_equal. apply list_fmap_ext. intros j i Hi.
    destruct (H i) as (k' & Hp & _); [by eapply list_elem_of_lookup_2|].
    unfold k. by rewrite Hp. }
  rewrite run_world_gather.
  trans (run_world ((λ i, Ret (P:=P) (res i)) <$> xs)).
  { f_equal. apply list_fmap_ext. intros j i Hi.
    destruct (H i) as (k' & Hp & Hk); [by eapply list_elem_of_lookup_2|].
    unfold k. by rewrite Hp. }
  apply run_world_ret.
Qed.

End Coll.

Section WithMetric.
Context `{MC : MetricClass} {MO : MetricOps MC}.

(** ** Methods called in a loop *)

Lemma occurrences_cons l l' ls :
  occurrences l (l' :: ls)
  = (if decide (l = l') then 1 else 0) + occurrences l ls.
Proof.
  unfold occurrences. rewrite filter_cons. by case_decide.
Qed.

Lemma metric_attr_raise l attr st :
  (∀ s, heap st !! l ≠ Some (OMetric s)) →
  metric_attr (VRef l) attr st
  = Ret (st, inl (no_attribute (heap st !! l) attr)).
Proof.
  intros Hno. unfold metric_attr, bind, lookup_obj. simpl.
  destruct (heap st !! l) as [[s| |]|]; try done. by destruct (Hno s).
Qed.

(** A loop that calls, on each listed metric, a method that makes [f] of
    the receiver's state: every listed object has had the method called
    once per time it is listed, and nothing else has changed. *)
Lemma for_list_in_place {Y B} (g : Y → M B) (emb : loc → Y)
    (f : MState → MState) :
  (∀ l s st, heap st !! l = Some (OMetric s) →
     ∃ b, g (emb l) st
          = Ret (State (<[l := OMetric (f s)]> (heap st)) (log st), inr b)) →
  ∀ ls st,
    Forall (λ l, ∃ s, heap st !! l = Some (OMetric s)) ls →
    ∃ h' bs,
      for_list g (emb <$> ls) st = Ret (State h' (log st), inr bs)
      ∧ length h' = length (heap st)
      ∧ ∀ l, h' !! l = called f (occurrences l ls) <$> heap st !! l.
Proof.
  intros Hg. induction ls as [|x ls IH]; intros st Hls.
  - exists (heap st), []. split_and!; [by destruct st|done|].
    intros l. by destruct (heap st !! l) as [[]|].
  - apply Forall_cons in Hls as [[s Hs] Hls].
    pose proof (lookup_lt_Some _ _ _ Hs) as Hlt.
    destruct (Hg x s st Hs) as [b Hb].
    destruct (IH (State (<[x := OMetric (f s)]> (heap st)) (log st)))
      as (h' & bs & Heq & Hlen & Hl).
    { eapply Forall_impl; [done|]. intros l [s' Hs']. cbn [heap].
      destruct (decide (l = x)) as [->|?].
      - rewrite list_lookup_insert_eq by done. eauto.
      - rewrite list_lookup_insert_ne by done. eauto. }
    cbn [heap log] in *. exists h', (b :: bs). rewrite fmap_cons.
    cbn [for_list].
    rewrite (bind_Ret_inr _ _ _ _ _ Hb), (bind_Ret_inr _ _ _ _ _ Heq).
    split_and!; [done|by rewrite Hlen, length_insert|].
    intros l. rewrite Hl, occurrences_cons.
    destruct (decide (l = x)) as [->|?].
    + rewrite list_lookup_insert_eq, Hs by done. simpl. f_equal. f_equal.
      by rewrite <- Nat.iter_succ_r.
    + by rewrite list_lookup_insert_ne.
Qed.

(** The loop stops at the first listed object that is no metric; the
    metrics before it have had their call. *)
Lemma for_list_in_place_raise {Y B} (g : Y → M B) (emb : loc → Y)
    (f : MState → MState) (attr : string) :
  (∀ l s st, heap st !! l = Some (OMetric s) →
     ∃ b, g (emb l) st
          = Ret (State (<[l := OMetric (f s)]> (heap st)) (log st), inr b)) →
  (∀ l st, (∀ s, heap st !! l ≠ Some (OMetric s)) →
     g (emb l) st = Ret (st, inl (no_attribute (heap st !! l) attr))) →
  ∀ good bad rest st,
    Forall (λ l, ∃ s, heap st !! l = Some (OMetric s)) good →
    (∀ s, heap st !! bad ≠ Some (OMetric s)) →
    ∃ h',
      for_list g (emb <$> good ++ bad :: rest) st
      = Ret (State h' (log st), inl (no_attribute (heap st !! bad) attr))
      ∧ length h' = length (heap st)
      ∧ ∀ l, h' !! l = called f (occurrences l good) <$> heap st !! l.
Proof.
  intros Hg Hraise. induction good as [|x good IH]; intros bad rest st Hgood Hbad.
  - exists (heap st). rewrite app_nil_l, fmap_cons. cbn [for_list].
    rewrite (bind_Ret_inl _ _ _ _ _ (Hraise _ _ Hbad)).
    split_and!; [by destruct st|done|].
    intros l. by destruct (heap st !! l) as [[]|].
  - apply Forall_cons in Hgood as [[s Hs] Hgood].
    pose proof (lookup_lt_Some _ _ _ Hs) as Hlt.
    destruct (Hg x s st Hs) as [b Hb].
    assert (bad ≠ x) as Hne.
    { intros ->. by destruct (Hbad s). }
    destruct (IH bad rest (State (<[x := OMetric (f s)]> (heap st)) (log st)))
      as (h' & Heq & Hlen & Hl).
    { eapply Forall_impl; [done|]. intros l [s' Hs']. cbn [heap].
      destruct (decide (l = x)) as [->|?].
      - rewrite list_lookup_insert_eq by done. eauto.
      - rewrite list_lookup_insert_ne by done. eauto. }
    { intros s'. cbn [heap]. rewrite list_lookup_insert_ne by done. apply Hbad. }
    cbn [heap log] in *. rewrite list_lookup_insert_ne in Heq by done.
    exists h'. rewrite <- app_comm_cons, fmap_cons. cbn [for_list].
    rewrite (bind_Ret_inr _ _ _ _ _ Hb), (bind_Ret_inl _ _ _ _ _ Heq).
    split_and!; [done|by rewrite Hlen, length_insert|].
    intros l. rewrite Hl, occurrences_cons.
    destruct (decide (l = x)) as [->|?].
    + rewrite list_lookup_insert_eq, Hs by done. simpl. f_equal. f_equal.
      by rewrite <- Nat.iter_succ_r.
    + by rewrite list_lookup_insert_ne.
Qed.

Lemma iter_list_eq metrics ms st :
  heap st !! metrics = Some (OList ms) →
  iter (VRef metrics) st = Ret (st, inr (EVal ∘ VRef <$> ms)).
Proof. intros H. unfold iter, bind, lookup_obj. simpl. by rewrite H. Qed.

Lemma iter_mapping_eq metrics mutable kls st :
  heap st !! metrics = Some (OMapping mutable kls) →
  iter (VRef metrics) st = Ret (st, inr (EStr <$> kls.*1)).
Proof. intros H. unfold iter, bind, lookup_obj. simpl. by rewrite H. Qed.

Lemma reset_eq l s st :
  heap st !! l = Some (OMetric s) →
  reset (VRef l) st
  = Ret (State (<[l := OMetric (on_reset s)]> (heap st)) (log st), inr tt).
Proof.
  intros H. unfold reset.
  by rewrite (bind_Ret_inr _ _ _ _ _ (metric_attr_eq _ _ _ _ H)).
Qed.

Lemma reset_raise l st :
  (∀ s, heap st !! l ≠ Some (OMetric s)) →
  reset (VRef l) st = Ret (st, inl (no_attribute (heap st !! l) "reset")).
Proof.
  intros H. unfold reset.
  by rewrite (bind_Ret_inl _ _ _ _ _ (metric_attr_raise _ _ _ H)).
Qed.

Lemma to_raise l d st :
  (∀ s, heap st !! l ≠ Some (OMetric s)) →
  to (VRef l) d st = Ret (st, inl (no_attribute (heap st !! l) "to")).
Proof.
  intros H. unfold to.
  by rewrite (bind_Ret_inl _ _ _ _ _ (metric_attr_raise _ _ _ H)).
Qed.

(** ** [to_device] and [reset_metrics] *)

(** X4. Given a list of metrics, [to_device] returns the list object it
    was given, having called [to] on each metric in place, once per time
    the metric is listed; every other object, the list itself and the log
    are as before, and nothing is allocated. *)
Theorem to_device_moves_each (metrics : loc) (ms : list loc) (d : device_t)
    (st : state) :
  heap st !! metrics = Some (OList ms) →
  Forall (λ m, ∃ s, heap st !! m = Some (OMetric s)) ms →
  ∃ h',
    to_device (VRef metrics) d st
    = Ret (State h' (log st), inr (VRef metrics))
    ∧ length h' = length (heap st)
    ∧ ∀ l, h' !! l
           = called (λ s, on_to s d) (occurrences l ms) <$> heap st !! l.
Proof.
  intros Hlist Hms. unfold to_device.
  rewrite (bind_Ret_inr _ _ _ _ _ (iter_list_eq _ _ _ Hlist)).
  destruct (for_list_in_place
              (λ metric, call "to" (λ m, to m d) metric) (EVal ∘ VRef)
              (λ s, on_to s d)) with (ls := ms) (st := st)
    as (h' & bs & Heq & Hlen & Hl); [|done|].
  { intros l s st' Hs. eexists. by apply to_eq. }
  exists h'. by rewrite (bind_Ret_inr _ _ _ _ _ Heq).
Qed.

(** X5. Given a list of metrics, [reset_metrics] returns the list object
    it was given, having called [reset] on each metric in place, once per
    time the metric is listed; nothing else changes. *)
Theorem reset_metrics_resets_each (metrics : loc) (ms : list loc)
    (st : state) :
  heap st !! metrics = Some (OList ms) →
  Forall (λ m, ∃ s, heap st !! m = Some (OMetric s)) ms →
  ∃ h',
    reset_metrics (VRef metrics) st
    = Ret (State h' (log st), inr (VRef metrics))
    ∧ length h' = length (heap st)
    ∧ ∀ l, h' !! l = called on_reset (occurrences l ms) <$> heap st !! l.
Proof.
  intros Hlist Hms. unfold reset_metrics.
  rewrite (bind_Ret_inr _ _ _ _ _ (iter_list_eq _ _ _ Hlist)).
  destruct (for_list_in_place
              (λ metric, call "reset" reset metric) (EVal ∘ VRef) on_reset)
    with (ls := ms) (st := st) as (h' & bs & Heq & Hlen & Hl); [|done|].
  { intros l s st' Hs. eexists. by apply reset_eq. }
  exists h'. by rewrite (bind_Ret_inr _ _ _ _ _ Heq).
Qed.

(** X6. When the first element of the list that is no metric is [None],
    a [dict] or a list (none of which has a [reset] or a [to]),
    [reset_metrics] and [to_device] raise the [AttributeError] of that
    object there; the metrics listed before it have been reset (moved)
    already and stay so, the ones after it are untouched. *)
Theorem loops_stop_at_first_non_metric (metrics : loc)
    (good : list loc) (bad : loc) (rest : list loc) (d : device_t)
    (st : state) :
  heap st !! metrics = Some (OList (good ++ bad :: rest)) →
  Forall (λ m, ∃ s, heap st !! m = Some (OMetric s)) good →
  heap st !! bad = None
  ∨ (∃ kls, heap st !! bad = Some (OMapping true kls))
  ∨ (∃ ms, heap st !! bad = Some (OList ms)) →
  (∃ h',
     reset_metrics (VRef metrics) st
     = Ret (State h' (log st),
            inl (no_attribute (heap st !! bad) "reset"))
     ∧ ∀ l, h' !! l = called on_reset (occurrences l good) <$> heap st !! l)
  ∧ (∃ h',
       to_device (VRef metrics) d st
       = Ret (State h' (log st), inl (no_attribute (heap st !! bad) "to"))
       ∧ ∀ l, h' !! l
              = called (λ s, on_to s d) (occurrences l good)
                  <$> heap st !! l).
Proof.
  intros Hlist Hgood Hcases.
  assert (∀ s, heap st !! bad ≠ Some (OMetric s)) as Hbad.
  { intros s Hs. rewrite Hs in Hcases.
    by destruct Hcases as [?|[[? ?]|[? ?]]]. }
  split.
  - unfold reset_metrics.
    rewrite (bind_Ret_inr _ _ _ _ _ (iter_list_eq _ _ _ Hlist)).
    destruct (for_list_in_place_raise
                (λ metric, call "reset" reset metric) (EVal ∘ VRef) on_reset
                "reset")
      with (good := good) (bad := bad) (rest := rest) (st := st)
      as (h' & Heq & Hlen & Hl); [| |done|done|].
    { intros l s st' Hs. eexists. by apply reset_eq. }
    { intros l st' Hno. by apply reset_raise. }
    exists h'. by rewrite (bind_Ret_inl _ _ _ _ _ Heq).
  - unfold to_device.
    rewrite (bind_Ret_inr _ _ _ _ _ (iter_list_eq _ _ _ Hlist)).
    destruct (for_list_in_place_raise
                (λ metric, call "to" (λ m, to m d) metric) (EVal ∘ VRef)
                (λ s, on_to s d) "to")
      with (good := good) (bad := bad) (rest := rest) (st := st)
      as (h' & Heq & Hlen & Hl); [| |done|done|].
    { intros l s st' Hs. eexists. by apply to_eq. }
    { intros l st' Hno. by apply to_raise. }
    exists h'. by rewrite (bind_Ret_inl _ _ _ _ _ Heq).
Qed.

(** X7. Given a dict, the three loops iterate over its keys, which are
    strings: [reset_metrics] and [to_device] reset or move nothing and
    raise [AttributeError] unless the dict is empty (then they return it);
    [clone_metrics] returns the list of the keys.  The store is left as it
    is. *)
Theorem loops_over_a_dict (metrics : loc) (mutable : bool)
    (kls : list (string * loc)) (d : device_t) (st : state) :
  heap st !! metrics = Some (OMapping mutable kls) →
  reset_metrics (VRef metrics) st
  = Ret (st, match kls with
             | [] => inr (VRef metrics)
             | _ => inl (AttributeError
                           "'str' object has no attribute 'reset'")
             end)
  ∧ to_device (VRef metrics) d st
    = Ret (st, match kls with
               | [] => inr (VRef metrics)
               | _ => inl (AttributeError
                             "'str' object has no attribute 'to'")
               end)
  ∧ clone_metrics (VRef metrics) st = Ret (st, inr (EStr <$> kls.*1)).
Proof.
  intros Hdict. unfold reset_metrics, to_device, clone_metrics.
  rewrite !(bind_Ret_inr _ _ _ _ _ (iter_mapping_eq _ _ _ _ Hdict)).
  split_and!; [by destruct kls..|].
  generalize (kls.*1). intros keys.
  induction keys as [|key keys IH]; [done|].
  rewrite fmap_cons. cbn [for_list].
  rewrite (bind_Ret_inr _ _ st st (EStr key)) by done.
  by rewrite (bind_Ret_inr _ _ _ _ _ IH).
Qed.

(** ** [clone_metrics] *)

Lemma clone_each_eq (ms : list loc) :
  ∀ (ss : list MState) st,
    Forall2 (λ m s, heap st !! m = Some (OMetric s)) ms ss →
    for_list (λ metric,
                match metric with
                | EVal v => bind (clone_metric v) (λ c, ret (EVal c))
                | EStr s => ret (EStr s)
                end) (EVal ∘ VRef <$> ms) st
    = Ret (State (heap st ++ (OMetric <$> ss)) (log st),
           inr (EVal ∘ VRef <$> seq (length (heap st)) (length ss))).
Proof.
  induction ms as [|m ms IH]; intros ss st Hms.
  - apply Forall2_nil_inv_l in Hms as ->. simpl. rewrite app_nil_r.
    by destruct st.
  - apply Forall2_cons_inv_l in Hms as (s & ss' & Hs & Hms & ->).
    rewrite fmap_cons. cbn [for_list].
    change ((EVal ∘ VRef) m) with (EVal (VRef m)). cbv iota.
    rewrite (bind_bind_Ret_inr _ _ _ _ _ _ (clone_metric_eq _ _ _ Hs)).
    rewrite (bind_Ret_inr _ _ _ _ _ (eq_refl : ret _ _ = Ret (_, inr _))).
    assert (Forall2 (λ m' s', (heap st ++ [OMetric s]) !! m'
                              = Some (OMetric s')) ms ss') as Hms'.
    { eapply Forall2_impl; [done|]. intros m' s' Hs'.
      by apply lookup_app_l_Some. }
    rewrite (bind_Ret_inr _ _ _ _ _
               (IH ss' (State (heap st ++ [OMetric s]) (log st)) Hms')).
    cbn [heap log]. rewrite length_app, <- app_assoc. simpl.
    by rewrite Nat.add_1_r.
Qed.

(** X8. Given a list of metrics, [clone_metrics] returns as many new
    metrics, in the same order, each allocated after everything that was
    there and holding the state of the metric it was cloned from; a metric
    listed twice is cloned twice.  The metrics given, the list and the log
    are as before. *)
Theorem clone_metrics_new_objects (metrics : loc) (ms : list loc)
    (ss : list MState) (st : state) :
  heap st !! metrics = Some (OList ms) →
  Forall2 (λ m s, heap st !! m = Some (OMetric s)) ms ss →
  clone_metrics (VRef metrics) st
  = Ret (State (heap st ++ (OMetric <$> ss)) (log st),
         inr (EVal ∘ VRef <$> seq (length (heap st)) (length ms))).
Proof.
  intros Hlist Hms. unfold clone_metrics.
  rewrite (bind_Ret_inr _ _ _ _ _ (iter_list_eq _ _ _ Hlist)).
  rewrite (Forall2_length _ _ _ Hms). by apply clone_each_eq.
Qed.

(** ** A group of ranks, each with a metric *)

(** One rank's run of [get_synced_metric]: it prepares its metric, ships
    it, and makes the synced metric out of what the collective
    delivers. *)
Lemma get_synced_metric_run (world_size : Z) m s st (s0 : MState) rest :
  (1 < world_size)%Z →
  heap st !! m = Some (OMetric s) →
  S (length rest) = Z.to_nat world_size →
  ∃ k,
    get_synced_metric (VRef m) world_size st
    = Gather AllGatherObject (PkMetric (on_prepare_for_merge_state s)) k
    ∧ k (PkMetric <$> s0 :: rest)
      = Ret (State (<[m := OMetric (on_prepare_for_merge_state s)]> (heap st)
                      ++ (OMetric <$> s0 :: rest)
                      ++ [OMetric
                            (on_merge_state
                               (on_to s0 (device_of
                                            (on_prepare_for_merge_state s)))
                               rest)])
                   (log st),
             inr (VRef (length (heap st) + S (length rest)))).
Proof.
  intros Hws Hm Hn. pose proof (lookup_lt_Some _ _ _ Hm) as Hlt.
  unfold get_synced_metric.
  rewrite (bind_Ret_inr _ _ _ _ _ (validate_large _ st Hws)).
  destruct (Z.eqb_spec world_size 1) as [|_]; [lia|].
  rewrite (sync_metric_object_metric _ _ _ _ _ Hm).
  eexists. split; [reflexivity|]. cbv beta.
  set (prep := on_prepare_for_merge_state s).
  set (st1 := State (<[m := OMetric prep]> (heap st)) (log st)).
  assert (length (heap st1) = length (heap st)) as Hlen1
    by (simpl; by rewrite length_insert).
  assert (length (s0 :: rest)
          = length (replicate (Z.to_nat world_size) VNone)) as Hrecv.
  { rewrite length_replicate. simpl. lia. }
  rewrite (bind_Ret_inr _ _ _ _ _
             (receive_metrics_eq _ (s0 :: rest) st1 Hrecv)).
  simpl length. rewrite <- Hlen1.
  rewrite (merge_gathered_metrics_eq m prep s0 rest).
  - by rewrite Hlen1.
  - simpl. by apply list_lookup_insert_eq.
Qed.

Lemma compute_eq l s st :
  heap st !! l = Some (OMetric s) →
  compute (VRef l) st = Ret (st, inr (on_compute s)).
Proof.
  intros H. unfold compute.
  by rewrite (bind_Ret_inr _ _ _ _ _ (metric_attr_eq _ _ _ _ H)).
Qed.

Lemma state_dict_eq l s st :
  heap st !! l = Some (OMetric s) →
  state_dict (VRef l) st = Ret (st, inr (on_state_dict s)).
Proof.
  intros H. unfold state_dict.
  by rewrite (bind_Ret_inr _ _ _ _ _ (metric_attr_eq _ _ _ _ H)).
Qed.

Lemma sync_and_compute_run (world_size : Z) m s st (s0 : MState) rest :
  (1 < world_size)%Z →
  heap st !! m = Some (OMetric s) →
  S (length rest) = Z.to_nat world_size →
  ∃ k,
    sync_and_compute (VRef m) world_size st
    = Gather AllGatherObject (PkMetric (on_prepare_for_merge_state s)) k
    ∧ k (PkMetric <$> s0 :: rest)
      = Ret (State (<[m := OMetric (on_prepare_for_merge_state s)]> (heap st)
                      ++ (OMetric <$> s0 :: rest)
                      ++ [OMetric
                            (on_merge_state
                               (on_to s0 (device_of
                                            (on_prepare_for_merge_state s)))
                               rest)])
                   (log st),
             inr (on_compute
                    (on_merge_state
                       (on_to s0 (device_of (on_prepare_for_merge_state s)))
                       rest))).
Proof.
  intros Hws Hm Hn. pose proof (lookup_lt_Some _ _ _ Hm) as Hlt.
  destruct (get_synced_metric_run world_size m s st s0 rest Hws Hm Hn)
    as (k & Hprog & Hk).
  unfold sync_and_compute, bind at 1. rewrite Hprog. cbn [cbind].
  eexists. split; [reflexivity|]. cbv beta. rewrite Hk. cbn [cbind resume].
  erewrite bind_Ret_inr; [reflexivity|].
  apply compute_eq. cbn [heap].
  rewrite lookup_app_r by (rewrite length_insert; lia).
  rewrite length_insert.
  replace (length (heap st) + S (length rest) - length (heap st))
    with (length (OMetric <$> s0 :: rest) + 0)
    by (rewrite length_fmap; simpl; lia).
  by rewrite lookup_app_r, Nat.add_comm, Nat.add_sub by lia.
Qed.

Lemma prepared_answer (r0 : rank) (rs : list rank) :
  (λ r, PkMetric (prepared r)) <$> r0 :: rs
  = PkMetric <$> prepared r0 :: (prepared <$> rs).
Proof. rewrite !fmap_cons. f_equal. by rewrite <- list_fmap_compose. Qed.

(** X9. A group of two or more ranks, each calling [get_synced_metric]
    on a metric of its own with the group's size: the run completes, and
    every rank returns a new metric that holds rank 0's prepared state,
    moved to the device of the rank's own (prepared) metric and merged
    with the prepared states of ranks 1, 2, ... in rank order.  On every
    rank the metric given has been prepared in place, the unpickled
    metrics of all ranks have been allocated, and nothing else has
    changed. *)
Theorem get_synced_metric_lock_step (r0 : rank) (rs : list rank) :
  0 < length rs →
  Forall holds_metric (r0 :: rs) →
  run_world
    ((λ r, get_synced_metric (VRef (rank_metric r))
                             (Z.of_nat (S (length rs))) (rank_store r))
       <$> r0 :: rs)
  = Some
      ((λ r, (State (<[rank_metric r := OMetric (prepared r)]>
                       (heap (rank_store r))
                     ++ (OMetric <$> prepared r0 :: (prepared <$> rs))
                     ++ [OMetric (synced_state r0 rs r)])
                    (log (rank_store r)),
              inr (VRef (length (heap (rank_store r)) + S (length rs)))))
         <$> r0 :: rs).
Proof.
  intros Hrs Hall.
  apply (run_world_one_gather AllGatherObject _
           (λ r, PkMetric (prepared r))).
  intros r Hr. rewrite prepared_answer.
  rewrite Forall_forall in Hall.
  destruct (get_synced_metric_run (Z.of_nat (S (length rs))) (rank_metric r)
              (rank_state r) (rank_store r) (prepared r0) (prepared <$> rs))
    as (k & Hprog & Hk); [lia|by apply Hall|by rewrite length_fmap; lia|].
  exists k. split; [done|]. by rewrite Hk, length_fmap.
Qed.

(** X10. In the same group, [sync_and_compute] gives every rank the
    [compute] result of that synced metric: of rank 0's prepared state,
    moved to the rank's device and merged with the other ranks' prepared
    states, in rank order.  The stores end as after
    [get_synced_metric]. *)
Theorem sync_and_compute_lock_step (r0 : rank) (rs : list rank) :
  0 < length rs →
  Forall holds_metric (r0 :: rs) →
  run_world
    ((λ r, sync_and_compute (VRef (rank_metric r))
                            (Z.of_nat (S (length rs))) (rank_store r))
       <$> r0 :: rs)
  = Some
      ((λ r, (State (<[rank_metric r := OMetric (prepared r)]>
                       (heap (rank_store r))
                     ++ (OMetric <$> prepared r0 :: (prepared <$> rs))
                     ++ [OMetric (synced_state r0 rs r)])
                    (log (rank_store r)),
              inr (on_compute (synced_state r0 rs r))))
         <$> r0 :: rs).
Proof.
  intros Hrs Hall.
  apply (run_world_one_gather AllGatherObject _
           (λ r, PkMetric (prepared r))).
  intros r Hr. rewrite prepared_answer.
  rewrite Forall_forall in Hall.
  destruct (sync_and_compute_run (Z.of_nat (S (length rs))) (rank_metric r)
              (rank_state r) (rank_store r) (prepared r0) (prepared <$> rs))
    as (k & Hprog & Hk); [lia|by apply Hall|by rewrite length_fmap; lia|].
  exists k. split; [done|]. by rewrite Hk.
Qed.

(** ** Pickles and the objects they are pickles of *)

Lemma pickle_item_app h ext kl ks :
  pickle_item h kl = Some ks → pickle_item (h ++ ext) kl = Some ks.
Proof.
  unfold pickle_item. destruct (h !! kl.2) as [o|] eqn:Ho; [|done].
  by rewrite (lookup_app_l_Some _ _ _ _ Ho).
Qed.

Lemma pickle_app h ext v p : pickle h v = Some p → pickle (h ++ ext) v = Some p.
Proof.
  unfold pickle. destruct v as [|l]; simpl; [done|].
  destruct (h !! l) as [o|] eqn:Ho; [|done].
  rewrite (lookup_app_l_Some _ _ _ _ Ho).
  destruct o as [s|mutable kls|]; try done.
  destruct (mapM (pickle_item h) kls) as [pitems|] eqn:Hitems; [|done].
  intros [= <-]. apply mapM_Some in Hitems.
  assert (mapM (pickle_item (h ++ ext)) kls = Some pitems) as ->; [|done].
  apply mapM_Some. eapply Forall2_impl; [done|].
  intros kl ks. apply pickle_item_app.
Qed.

Lemma pickle_metric_inv h v s :
  pickle h v = Some (PkMetric s) → ∃ l, v = VRef l ∧ h !! l = Some (OMetric s).
Proof.
  unfold pickle. destruct v as [|l]; simpl; [done|].
  destruct (h !! l) as [[s'|mutable kls|]|] eqn:Hl; try done.
  - intros [= ->]. eauto.
  - by destruct (mapM (pickle_item h) kls).
Qed.

Lemma pickle_mapping_inv h v mutable pitems :
  pickle h v = Some (PkMapping mutable pitems) →
  ∃ l kls, v = VRef l ∧ h !! l = Some (OMapping mutable kls)
    ∧ Forall2 (λ kl ks, kl.1 = ks.1 ∧ h !! kl.2 = Some (OMetric ks.2))
              kls pitems.
Proof.
  unfold pickle. destruct v as [|l]; simpl; [done|].
  destruct (h !! l) as [[s'|mutable' kls|]|] eqn:Hl; try done.
  destruct (mapM (pickle_item h) kls) as [pitems'|] eqn:Hitems; [|done].
  intros [= -> ->]. exists l, kls. split_and!; [done..|].
  apply mapM_Some in Hitems. eapply Forall2_impl; [done|].
  intros [k b] [k' s]. unfold pickle_item. simpl.
  destruct (h !! b) as [[s'| |]|]; try done. by intros [= -> ->].
Qed.

Lemma assoc_set_dict_set key l (kls : list (string * loc)) :
  assoc_set key l kls = dict_set key l kls.
Proof. induction kls as [|[k l'] kls IH]; simpl; [done|]. by rewrite IH. Qed.

(** Looking a key up in an object goes with looking it up in the
    object's pickle. *)
Lemma assoc_pickled (h : list obj) kls (pitems : list (string * MState)) key :
  Forall2 (λ kl ks, kl.1 = ks.1 ∧ h !! kl.2 = Some (OMetric ks.2))
          kls pitems →
  match dict_get key pitems with
  | Some s => ∃ b, assoc key kls = Some b ∧ h !! b = Some (OMetric s)
  | None => assoc key kls = None
  end.
Proof.
  induction 1 as [|[k b] [k' s] kls pitems [Hk Hb] _ IH]; simpl in *; [done|].
  subst k'. case_decide; [eauto|done].
Qed.

Lemma getitem_state st v p key s :
  pickle (heap st) v = Some p →
  state_under key p = Some s →
  ∃ b, getitem v key st = Ret (st, inr (VRef b))
       ∧ heap st !! b = Some (OMetric s).
Proof.
  intros Hp Hs. destruct p as [|mutable pitems]; [done|]. simpl in Hs.
  apply pickle_mapping_inv in Hp as (l & kls & -> & Hl & Hitems).
  pose proof (assoc_pickled _ _ _ key Hitems) as Hkey. rewrite Hs in Hkey.
  destruct Hkey as (b & Hassoc & Hb). exists b. split; [|done].
  unfold getitem, bind, lookup_obj. simpl. by rewrite Hl, Hassoc.
Qed.

Lemma getitem_raise st v p key :
  pickle (heap st) v = Some p →
  state_under key p = None →
  getitem v key st
  = Ret (st, inl match p with
                 | PkMapping _ _ => KeyError key
                 | PkMetric _ =>
                     TypeError "'Metric' object is not subscriptable"
                 end).
Proof.
  intros Hp Hs. destruct p as [s|mutable pitems].
  - apply pickle_metric_inv in Hp as (l & -> & Hl).
    unfold getitem, bind, lookup_obj. simpl. by rewrite Hl.
  - simpl in Hs.
    apply pickle_mapping_inv in Hp as (l & kls & -> & Hl & Hitems).
    pose proof (assoc_pickled _ _ _ key Hitems) as Hkey. rewrite Hs in Hkey.
    unfold getitem, bind, lookup_obj. simpl. by rewrite Hl, Hkey.
Qed.

Lemma pickle_items_seq (items : list (string * MState)) :
  ∀ h tail,
    mapM (pickle_item (h ++ (OMetric ∘ snd <$> items) ++ tail))
         (zip (items.*1) (seq (length h) (length items)))
    = Some items.
Proof.
  induction items as [|[k s] items IH]; intros h tail; [done|].
  rewrite !fmap_cons. simpl length. simpl seq. simpl zip.
  specialize (IH (h ++ [OMetric s]) tail).
  rewrite length_app, Nat.add_1_r, <- app_assoc in IH.
  change (mapM ?f (?x :: ?l)) with (y ← f x; k ← mapM f l; mret (y :: k)).
  change ((OMetric ∘ snd) (k, s)) with (OMetric s).
  change (h ++ (OMetric s :: (OMetric ∘ snd <$> items)) ++ tail)
    with (h ++ [OMetric s] ++ (OMetric ∘ snd <$> items) ++ tail).
  rewrite IH. unfold pickle_item at 1. simpl.
  by rewrite lookup_app_r, Nat.sub_diag by lia.
Qed.

Lemma loads_pickle p st :
  ∃ ext l,
    loads p st = Ret (State (heap st ++ ext) (log st), inr (VRef l))
    ∧ pickle (heap st ++ ext) (VRef l) = Some p.
Proof.
  destruct p as [s|mutable items]; simpl.
  - exists [OMetric s], (length (heap st)). split; [done|].
    unfold pickle. simpl. by rewrite lookup_app_r, Nat.sub_diag by lia.
  - rewrite (bind_Ret_inr _ _ _ _ _ (alloc_items_eq items st)).
    eexists (_ ++ [_]), _. split.
    + unfold bind, alloc. simpl. by rewrite <- app_assoc.
    + unfold pickle. simpl. rewrite app_assoc.
      rewrite lookup_app_r, Nat.sub_diag by lia. simpl.
      rewrite <- app_assoc. by rewrite pickle_items_seq.
Qed.

Lemma for_list_loads_pickle ps :
  ∀ st, ∃ ext vs,
    for_list loads ps st = Ret (State (heap st ++ ext) (log st), inr vs)
    ∧ Forall2 (λ p v, pickle (heap st ++ ext) v = Some p) ps vs.
Proof.
  induction ps as [|p ps IH]; intros st; simpl.
  - exists [], []. rewrite app_nil_r. split; [by destruct st|constructor].
  - destruct (loads_pickle p st) as (ext1 & l & Heq & Hp).
    destruct (IH (State (heap st ++ ext1) (log st)))
      as (ext2 & vs & Heq2 & Hvs). simpl in *.
    exists (ext1 ++ ext2), (VRef l :: vs).
    rewrite (bind_Ret_inr _ _ _ _ _ Heq), (bind_Ret_inr _ _ _ _ _ Heq2).
    rewrite app_assoc. split; [done|]. constructor; [|done].
    by apply pickle_app.
Qed.

(** What [all_gather_object] leaves in the list when every rank has
    delivered: one new object per rank, each the unpickled delivery. *)
Lemma receive_pickle n xs st :
  length xs = n →
  ∃ ext vs,
    receive (replicate n VNone) xs st
    = Ret (State (heap st ++ ext) (log st), inr vs)
    ∧ Forall2 (λ p v, pickle (heap st ++ ext) v = Some p) xs vs.
Proof.
  intros Hn. unfold receive. rewrite length_replicate.
  rewrite take_ge by lia.
  destruct (for_list_loads_pickle xs st) as (ext & vs & Heq & Hvs).
  exists ext, vs. rewrite (bind_Ret_inr _ _ _ _ _ Heq). unfold ret.
  rewrite drop_ge, app_nil_r; [done|].
  rewrite length_replicate, <- (Forall2_length _ _ _ Hvs). lia.
Qed.

(** ** The loop of [get_synced_metric_collection] *)

Lemma insert_middle {A} (l : list A) x y t :
  <[length l := x]> (l ++ y :: t) = l ++ x :: t.
Proof. by rewrite insert_app_r_alt, Nat.sub_diag by lia. Qed.

Lemma lookup_middle {A} (l : list A) y t : (l ++ y :: t) !! length l = Some y.
Proof. by rewrite lookup_app_r, Nat.sub_diag by lia. Qed.

(** The metrics of the other ranks under one key. *)
Lemma others_eq key (gathered : list pyval) st :
  ∀ others vs j ss,
    (∀ i v, vs !! i = Some v → gathered !! (j + i) = Some v) →
    Forall2 (λ p v, pickle (heap st) v = Some p) others vs →
    mapM (state_under key) others = Some ss →
    ∃ bs,
      for_list (λ rank, bind (index gathered rank) (λ c, getitem c key))
               (seq j (length others)) st
      = Ret (st, inr bs)
      ∧ Forall2 (λ v s, ∃ l, v = VRef l ∧ heap st !! l = Some (OMetric s))
                bs ss.
Proof.
  induction others as [|p others IH]; intros vs j ss Hg Hvs Hss.
  - apply mapM_Some, Forall2_nil_inv_l in Hss as ->. exists [].
    split; [done|constructor].
  - apply Forall2_cons_inv_l in Hvs as (v & vs' & Hp & Hvs & ->).
    apply mapM_Some, Forall2_cons_inv_l in Hss as (s & ss' & Hs & Hss & ->).
    apply mapM_Some in Hss.
    destruct (getitem_state st v p key s Hp Hs) as (b & Hget & Hb).
    destruct (IH vs' (S j) ss') as (bs & Heq & Hbs); [|done..|].
    { intros i v' Hi. replace (S j + i) with (j + S i) by lia. by apply Hg. }
    exists (VRef b :: bs). split; [|constructor; eauto].
    simpl length. simpl seq. cbn [for_list].
    assert (index gathered j st = Ret (st, inr v)) as Hindex.
    { unfold index. rewrite <- (Nat.add_0_r j), (Hg 0 v); done. }
    rewrite (bind_bind_Ret_inr _ _ _ _ _ _ Hindex).
    rewrite (bind_Ret_inr _ _ _ _ _ Hget).
    by rewrite (bind_Ret_inr _ _ _ _ _ Heq).
Qed.

(** The loop over the other ranks stops at the first rank whose object
    has no metric under the key. *)
Lemma others_raise key (gathered : list pyval) st bad vbad n :
  pickle (heap st) vbad = Some bad →
  state_under key bad = None →
  ∀ good vs j ss,
    (∀ i v, (vs ++ [vbad]) !! i = Some v → gathered !! (j + i) = Some v) →
    Forall2 (λ p v, pickle (heap st) v = Some p) good vs →
    mapM (state_under key) good = Some ss →
    for_list (λ rank, bind (index gathered rank) (λ c, getitem c key))
             (seq j (length good + S n)) st
    = Ret (st, inl match bad with
                   | PkMapping _ _ => KeyError key
                   | PkMetric _ =>
                       TypeError "'Metric' object is not subscriptable"
                   end).
Proof.
  intros Hbad Hnone.
  induction good as [|p good IH]; intros vs j ss Hg Hvs Hss.
  - apply Forall2_nil_inv_l in Hvs as ->. simpl length. simpl seq.
    cbn [for_list].
    assert (index gathered j st = Ret (st, inr vbad)) as Hindex.
    { unfold index. rewrite <- (Nat.add_0_r j), (Hg 0 vbad); done. }
    rewrite (bind_bind_Ret_inr _ _ _ _ _ _ Hindex).
    by rewrite (bind_Ret_inl _ _ _ _ _ (getitem_raise _ _ _ _ Hbad Hnone)).
  - apply Forall2_cons_inv_l in Hvs as (v & vs' & Hp & Hvs & ->).
    apply mapM_Some, Forall2_cons_inv_l in Hss as (s & ss' & Hs & Hss & ->).
    apply mapM_Some in Hss.
    destruct (getitem_state st v p key s Hp Hs) as (b & Hget & Hb).
    simpl length. simpl seq. cbn [for_list].
    assert (index gathered j st = Ret (st, inr v)) as Hindex.
    { unfold index. rewrite <- (Nat.add_0_r j), (Hg 0 v); done. }
    rewrite (bind_bind_Ret_inr _ _ _ _ _ _ Hindex).
    rewrite (bind_Ret_inr _ _ _ _ _ Hget).
    erewrite bind_Ret_inl; [reflexivity|].
    apply (IH vs' (S j) ss'); [|done..].
    intros i v' Hi. replace (S j + i) with (j + S i) by lia. by apply Hg.
Qed.

Local Abbreviation merge_key world_size rank_0_dict list_of_metric_collections
    synced_metric_dict :=
  (λ metric_key : string,
     bind (getitem rank_0_dict metric_key) (λ base_metric,
     bind (for_list (λ rank,
                       bind (index list_of_metric_collections rank)
                            (λ c, getitem c metric_key))
                    (seq 1 (Z.to_nat world_size - 1)))
          (λ other_rank_metrics,
     bind (clone_metric base_metric) (λ c,
     bind (metric_attr c "to") (λ _,
     bind (device base_metric) (λ d,
     bind (to c d) (λ c,
     bind (merge_state c other_rank_metrics) (λ synced_metric,
       setitem synced_metric_dict metric_key synced_metric)))))))).

(** One turn of the loop: a new metric is allocated for the key, made of
    rank 0's metric, moved to that metric's own device and merged with
    the other ranks' metrics under the key; the new dict gets it under
    the key. *)
Lemma merge_key_eq (world_size : Z) h2 lg v0 vs items0 others acc clones
    key s0 ss :
  pickle h2 v0 = Some (PkMapping true items0) →
  Forall2 (λ p v, pickle h2 v = Some p) others vs →
  length others = Z.to_nat world_size - 1 →
  dict_get key items0 = Some s0 →
  mapM (state_under key) others = Some ss →
  key ∉ acc.*1 →
  merge_key world_size v0 (v0 :: vs) (length h2) key
    (State (h2 ++ OMapping true acc :: clones) lg)
  = Ret (State (h2 ++ OMapping true
                        (acc ++ [(key, S (length h2 + length clones))])
                   :: clones
                   ++ [OMetric (on_merge_state (on_to s0 (device_of s0)) ss)])
               lg,
         inr tt).
Proof.
  intros Hv0 Hvs Hlen Hkey Hss Hfresh. cbv beta.
  set (H := h2 ++ OMapping true acc :: clones).
  assert (length H = S (length h2 + length clones)) as HlenH.
  { unfold H. rewrite length_app. simpl. lia. }
  set (st := State H lg).
  assert (pickle (heap st) v0 = Some (PkMapping true items0)) as Hv0'
    by by apply pickle_app.
  assert (Forall2 (λ p v, pickle (heap st) v = Some p) others vs) as Hvs'.
  { eapply Forall2_impl; [done|]. intros p v. apply pickle_app. }
  destruct (getitem_state st v0 _ key s0 Hv0' Hkey) as (b & Hget & Hb).
  rewrite (bind_Ret_inr _ _ _ _ _ Hget).
  destruct (others_eq key (v0 :: vs) st others vs 1 ss)
    as (bs & Hothers & Hbs); [done..|].
  rewrite <- Hlen, (bind_Ret_inr _ _ _ _ _ Hothers).
  rewrite (bind_Ret_inr _ _ _ _ _ (clone_metric_eq _ _ st Hb)).
  cbn [heap log].
  rewrite (bind_Ret_inr _ _ _ _ _
             (metric_attr_eq _ _ _ (State (H ++ [OMetric s0]) lg)
                (lookup_middle H _ []))).
  rewrite (bind_Ret_inr _ _ _ _ _
             (device_eq _ _ (State (H ++ [OMetric s0]) lg)
                (lookup_app_l_Some _ _ _ _ Hb))).
  rewrite (bind_Ret_inr _ _ _ _ _
             (to_eq _ _ _ (State (H ++ [OMetric s0]) lg)
                (lookup_middle H _ []))).
  cbn [heap log]. rewrite insert_middle.
  rewrite (bind_Ret_inr _ _ _ _ _
             (merge_state_eq _ _ bs ss
                (State (H ++ [OMetric (on_to s0 (device_of s0))]) lg)
                (lookup_middle H _ [])
                ltac:(eapply Forall2_impl; [exact Hbs|];
                      intros v s (l & -> & Hl); exists l; split; [done|];
                      by apply lookup_app_l_Some))).
  cbn [heap log]. rewrite insert_middle.
  unfold setitem.
  rewrite (bind_Ret_inr _ _ _
             (State (H ++ [OMetric (on_merge_state (on_to s0 (device_of s0)) ss)])
                    lg)
             (Some (OMapping true acc))).
  2:{ unfold lookup_obj. simpl. unfold H.
      by rewrite <- app_assoc, <- app_comm_cons, lookup_middle. }
  unfold store. cbn [heap log].
  rewrite assoc_set_dict_set, dict_set_fresh by done.
  rewrite HlenH. unfold H.
  by rewrite <- app_assoc, <- app_comm_cons, insert_middle.
Qed.

(** The new dict while it is filled: the keys done so far with the
    metrics made for them, which sit behind it in the store. *)
Local Abbreviation filling h2 res lg :=
  (State (h2 ++ OMapping true
                  (zip (fmap fst res%list)
                       (seq (S (length h2)) (length res%list)))
             :: fmap OMetric (fmap snd res%list))
         lg).

Lemma filling_snoc (d : nat) (res : list (string * MState)) key s :
  zip (res ++ [(key, s)]).*1 (seq (S d) (length (res ++ [(key, s)])))
  = zip (res.*1) (seq (S d) (length res)) ++ [(key, S (d + length res))].
Proof.
  rewrite fmap_app, length_app, seq_app. simpl.
  rewrite zip_with_app by (by rewrite length_fmap, length_seq). done.
Qed.

Lemma merge_loop_eq (world_size : Z) h2 lg v0 vs items0 others :
  pickle h2 v0 = Some (PkMapping true items0) →
  Forall2 (λ p v, pickle h2 v = Some p) others vs →
  length others = Z.to_nat world_size - 1 →
  ∀ todo res new,
    (∀ ks, ks ∈ todo → dict_get ks.1 items0 = Some ks.2) →
    merged_collection todo others = Some new →
    NoDup (res.*1 ++ todo.*1) →
    ∃ us,
      for_list (merge_key world_size v0 (v0 :: vs) (length h2)) (todo.*1)
               (filling h2 res lg)
      = Ret (filling h2 (res ++ new) lg, inr us).
Proof.
  intros Hv0 Hvs Hlen.
  induction todo as [|ks todo IH]; intros res new Hitems Hnew Hnd.
  - apply mapM_Some, Forall2_nil_inv_l in Hnew as ->.
    exists []. by rewrite app_nil_r.
  - apply mapM_Some, Forall2_cons_inv_l in Hnew as (e & new' & He & Hnew & ->).
    apply mapM_Some in Hnew. apply bind_Some in He as (ss & Hss & [= <-]).
    rewrite fmap_cons in Hnd. rewrite fmap_cons. cbn [for_list].
    assert (ks.1 ∉ (zip (res.*1) (seq (S (length h2)) (length res))).*1)
      as Hfresh.
    { rewrite fst_zip by (by rewrite length_fmap, length_seq).
      apply NoDup_app in Hnd as (_ & Hdisj & _). intros Hin.
      apply (Hdisj _ Hin). by left. }
    rewrite (bind_Ret_inr _ _ _ _ _
               (merge_key_eq world_size h2 lg v0 vs items0 others _ _ ks.1
                  ks.2 ss Hv0 Hvs Hlen
                  (Hitems ks ltac:(by left)) Hss Hfresh)).
    destruct (IH (res ++ [(ks.1, on_merge_state
                                   (on_to ks.2 (device_of ks.2)) ss)]) new')
      as (us & Heq); [|done| |].
    { intros ks' Hin. apply Hitems. by right. }
    { rewrite fmap_app, <- app_assoc. done. }
    exists (tt :: us).
    match goal with |- bind ?m ?f ?st = _ =>
      assert (st = filling h2
                     (res ++ [(ks.1, on_merge_state
                                       (on_to ks.2 (device_of ks.2)) ss)]) lg)
        as ->
    end.
    { rewrite filling_snoc, !fmap_app, !length_fmap. done. }
    rewrite (bind_Ret_inr _ _ _ _ _ Heq).
    by rewrite <- app_assoc.
Qed.

(** The new dict, once filled, is a dict of the metrics made. *)
Lemma pickle_filling h2 (res : list (string * MState)) lg :
  pickle (heap (filling h2 res lg)) (VRef (length h2))
  = Some (PkMapping true res).
Proof.
  unfold pickle. cbn [heap deref]. rewrite lookup_middle.
  pose proof (pickle_items_seq res
                (h2 ++ [OMapping true
                          (zip (res.*1) (seq (S (length h2)) (length res)))])
                []) as Hitems.
  rewrite length_app, Nat.add_1_r, <- app_assoc, app_nil_r in Hitems.
  rewrite list_fmap_compose in Hitems. simpl in Hitems.
  by rewrite Hitems.
Qed.

(** What [get_synced_metric_collection] does with the gathered
    objects. *)
Local Abbreviation merge_collections world_size :=
  (λ list_of_metric_collections : list pyval,
     bind (index list_of_metric_collections 0) (λ rank_0_dict,
     bind (lookup_obj rank_0_dict) (λ o,
       match o with
       | Some (OMapping true items) =>
           bind (alloc (OMapping true [])) (λ synced_metric_dict,
           bind (for_list
                   (merge_key world_size rank_0_dict
                              list_of_metric_collections synced_metric_dict)
                   (items.*1))
                (λ _, ret (VRef synced_metric_dict)))
       | _ => ret VNone
       end))).

Lemma pickled_keys (h : list obj) (kls : list (string * loc))
    (pitems : list (string * MState)) :
  Forall2 (λ kl ks, kl.1 = ks.1 ∧ h !! kl.2 = Some (OMetric ks.2))
          kls pitems →
  kls.*1 = pitems.*1.
Proof.
  induction 1 as [|kl ks kls pitems [Hk _] _ IH]; [done|].
  rewrite !fmap_cons. by f_equal.
Qed.

Lemma merge_collections_good (world_size : Z) (h2 : list obj) lg v0 vs
    (items0 : list (string * MState)) others
    (result : list (string * MState)) :
  pickle h2 v0 = Some (PkMapping true items0) →
  Forall2 (λ p v, pickle h2 v = Some p) others vs →
  length others = Z.to_nat world_size - 1 →
  NoDup items0.*1 →
  merged_collection items0 others = Some result →
  merge_collections world_size (v0 :: vs) (State h2 lg)
  = Ret (filling h2 result lg, inr (VRef (length h2))).
Proof.
  intros Hv0 Hvs Hlen Hnd Hres. cbv beta.
  rewrite (bind_Ret_inr _ _ (State h2 lg) (State h2 lg) v0) by done.
  destruct (pickle_mapping_inv _ _ _ _ Hv0) as (l0 & kls0 & -> & Hl0 & Hkls0).
  rewrite (bind_Ret_inr _ _ (State h2 lg) (State h2 lg)
             (Some (OMapping true kls0)))
    by (unfold lookup_obj; simpl; by rewrite Hl0).
  rewrite (bind_Ret_inr _ _ (State h2 lg)
             (filling h2 (@nil (string * MState)) lg) (length h2))
    by done.
  rewrite (pickled_keys _ _ _ Hkls0).
  destruct (merge_loop_eq world_size h2 lg (VRef l0) vs items0 others
              Hv0 Hvs Hlen items0 [] result) as (us & Heq); [|done|done|].
  { intros [k s] Hin. by apply dict_get_elem. }
  by rewrite (bind_Ret_inr _ _ _ _ _ Heq).
Qed.

(** A turn of the loop for a key that some other rank has no metric
    for: it raises at the first such rank, before anything is made. *)
Lemma merge_key_raise (world_size : Z) (h2 tail : list obj) lg v0 vs
    (items0 : list (string * MState)) good bad rest key s0 ss :
  pickle h2 v0 = Some (PkMapping true items0) →
  Forall2 (λ p v, pickle h2 v = Some p) (good ++ bad :: rest) vs →
  length (good ++ bad :: rest) = Z.to_nat world_size - 1 →
  dict_get key items0 = Some s0 →
  mapM (state_under key) good = Some ss →
  state_under key bad = None →
  merge_key world_size v0 (v0 :: vs) (length h2) key (State (h2 ++ tail) lg)
  = Ret (State (h2 ++ tail) lg,
         inl match bad with
             | PkMapping _ _ => KeyError key
             | PkMetric _ => TypeError "'Metric' object is not subscriptable"
             end).
Proof.
  intros Hv0 Hvs Hlen Hkey Hss Hnone. cbv beta.
  set (st := State (h2 ++ tail) lg).
  assert (pickle (heap st) v0 = Some (PkMapping true items0)) as Hv0'
    by by apply pickle_app.
  destruct (getitem_state st v0 _ key s0 Hv0' Hkey) as (b & Hget & Hb).
  apply Forall2_app_inv_l in Hvs as (vgood & vrest & Hgood & Hrest & ->).
  apply Forall2_cons_inv_l in Hrest as (vbad & vrest' & Hbad & _ & ->).
  rewrite length_app in Hlen. simpl in Hlen.
  rewrite (bind_Ret_inr _ _ _ _ _ Hget).
  erewrite bind_Ret_inl; [reflexivity|].
  rewrite <- Hlen.
  apply (others_raise key _ st bad vbad (length rest)
           (pickle_app _ _ _ _ Hbad) Hnone good vgood 1 ss).
  - intros i v Hi. simpl.
    rewrite (app_assoc vgood [vbad] vrest' : vgood ++ vbad :: vrest' = _).
    by apply lookup_app_l_Some.
  - eapply Forall2_impl; [done|]. intros p v. apply pickle_app.
  - done.
Qed.

(** The loop goes through the keys that every rank has a metric for and
    stops at the first key that some rank has none for. *)
Lemma merge_loop_raise (world_size : Z) (h2 : list obj) lg v0 vs
    (items0 : list (string * MState)) good bad rest key s0 ss more :
  pickle h2 v0 = Some (PkMapping true items0) →
  Forall2 (λ p v, pickle h2 v = Some p) (good ++ bad :: rest) vs →
  length (good ++ bad :: rest) = Z.to_nat world_size - 1 →
  dict_get key items0 = Some s0 →
  mapM (state_under key) good = Some ss →
  state_under key bad = None →
  ∀ todo res new,
    (∀ ks, ks ∈ todo → dict_get ks.1 items0 = Some ks.2) →
    merged_collection todo (good ++ bad :: rest) = Some new →
    NoDup (res.*1 ++ todo.*1) →
    for_list (merge_key world_size v0 (v0 :: vs) (length h2))
             (todo.*1 ++ key :: more) (filling h2 res lg)
    = Ret (filling h2 (res ++ new) lg,
           inl match bad with
               | PkMapping _ _ => KeyError key
               | PkMetric _ =>
                   TypeError "'Metric' object is not subscriptable"
               end).
Proof.
  intros Hv0 Hvs Hlen Hkey Hss Hnone.
  induction todo as [|ks todo IH]; intros res new Hitems Hnew Hnd.
  - apply mapM_Some, Forall2_nil_inv_l in Hnew as ->.
    rewrite app_nil_r, fmap_nil, app_nil_l. cbn [for_list].
    by rewrite (bind_Ret_inl _ _ _ _ _
                  (merge_key_raise world_size h2 _ lg v0 vs items0 good bad
                     rest key s0 ss Hv0 Hvs Hlen Hkey Hss Hnone)).
  - apply mapM_Some, Forall2_cons_inv_l in Hnew as (e & new' & He & Hnew & ->).
    apply mapM_Some in Hnew. apply bind_Some in He as (ss' & Hss' & [= <-]).
    rewrite fmap_cons in Hnd. rewrite fmap_cons, <- app_comm_cons.
    cbn [for_list].
    assert (ks.1 ∉ (zip (res.*1) (seq (S (length h2)) (length res))).*1)
      as Hfresh.
    { rewrite fst_zip by (by rewrite length_fmap, length_seq).
      apply NoDup_app in Hnd as (_ & Hdisj & _). intros Hin.
      apply (Hdisj _ Hin). by left. }
    rewrite (bind_Ret_inr _ _ _ _ _
               (merge_key_eq world_size h2 lg v0 vs items0
                  (good ++ bad :: rest) _ _ ks.1 ks.2 ss' Hv0 Hvs Hlen
                  (Hitems ks ltac:(by left)) Hss' Hfresh)).
    match goal with |- bind ?m ?f ?st = _ =>
      assert (st = filling h2
                     (res ++ [(ks.1, on_merge_state
                                       (on_to ks.2 (device_of ks.2)) ss')]) lg)
        as ->
    end.
    { rewrite filling_snoc, !fmap_app, !length_fmap. done. }
    erewrite bind_Ret_inl; [reflexivity|].
    rewrite (IH (res ++ [(ks.1, on_merge_state
                                  (on_to ks.2 (device_of ks.2)) ss')]) new').
    + by rewrite <- app_assoc.
    + intros ks' Hin. apply Hitems. by right.
    + done.
    + rewrite fmap_app, <- app_assoc. done.
Qed.

Lemma merge_collections_raise (world_size : Z) (h2 : list obj) lg v0 vs
    (done more : list (string * MState)) key s0 good bad rest ss
    (new : list (string * MState)) :
  pickle h2 v0 = Some (PkMapping true (done ++ (key, s0) :: more)) →
  Forall2 (λ p v, pickle h2 v = Some p) (good ++ bad :: rest) vs →
  length (good ++ bad :: rest) = Z.to_nat world_size - 1 →
  NoDup (done ++ (key, s0) :: more).*1 →
  merged_collection done (good ++ bad :: rest) = Some new →
  mapM (state_under key) good = Some ss →
  state_under key bad = None →
  merge_collections world_size (v0 :: vs) (State h2 lg)
  = Ret (filling h2 new lg,
         inl match bad with
             | PkMapping _ _ => KeyError key
             | PkMetric _ => TypeError "'Metric' object is not subscriptable"
             end).
Proof.
  intros Hv0 Hvs Hlen Hnd Hnew Hss Hnone. cbv beta.
  rewrite (bind_Ret_inr _ _ (State h2 lg) (State h2 lg) v0) by done.
  destruct (pickle_mapping_inv _ _ _ _ Hv0) as (l0 & kls0 & -> & Hl0 & Hkls0).
  rewrite (bind_Ret_inr _ _ (State h2 lg) (State h2 lg)
             (Some (OMapping true kls0)))
    by (unfold lookup_obj; simpl; by rewrite Hl0).
  rewrite (bind_Ret_inr _ _ (State h2 lg)
             (filling h2 (@nil (string * MState)) lg) (length h2))
    by done.
  rewrite (pickled_keys _ _ _ Hkls0), fmap_app, fmap_cons. cbn [fst].
  assert (dict_get key (done ++ (key, s0) :: more) = Some s0) as Hkey.
  { apply dict_get_elem; [done|]. apply elem_of_app. right. by left. }
  erewrite bind_Ret_inl; [reflexivity|].
  apply (merge_loop_raise world_size h2 lg (VRef l0) vs
           (done ++ (key, s0) :: more) good bad rest key s0 ss (more.*1)
           Hv0 Hvs Hlen Hkey Hss Hnone done [] new).
  - intros [k s] Hin. apply dict_get_elem; [done|].
    apply elem_of_app. by left.
  - done.
  - rewrite fmap_app in Hnd. by apply NoDup_app in Hnd as (? & _ & _).
Qed.

Lemma merge_collections_none (world_size : Z) gathered v0 st :
  gathered !! 0 = Some v0 →
  (∀ items, deref (heap st) v0 ≠ Some (OMapping true items)) →
  merge_collections world_size gathered st = Ret (st, inr VNone).
Proof.
  intros Hv0 Hno. cbv beta.
  rewrite (bind_Ret_inr _ _ st st v0) by (unfold index; by rewrite Hv0).
  rewrite (bind_Ret_inr _ _ st st (deref (heap st) v0)) by done.
  destruct (deref (heap st) v0) as [[s|[] items|]|]; try done.
  by destruct (Hno items).
Qed.

Lemma framed_merge_collections n (world_size : Z) gathered :
  framed n (merge_collections world_size gathered) (fresh n).
Proof.
  eapply framed_bind; [apply framed_index|]. intros rank_0_dict _.
  eapply framed_bind; [apply framed_lookup_obj|]. intros o _.
  destruct o as [[s|[] kls|]|]; try by apply framed_ret.
  eapply framed_bind; [apply framed_alloc|]. intros d Hd.
  eapply framed_bind; [|intros; by apply framed_ret].
  apply framed_for_list with (P := λ _, True). intros key _.
  eapply framed_bind; [apply framed_getitem|]. intros base _.
  eapply framed_bind.
  { apply framed_for_list with (P := λ _, True). intros rank _.
    eapply framed_bind; [apply framed_index|]. intros c _.
    apply framed_getitem. }
  intros others _.
  eapply framed_bind; [apply framed_deepcopy|]. intros c Hc.
  eapply framed_bind; [apply framed_metric_attr|]. intros _ _.
  eapply framed_bind; [apply framed_device|]. intros dev _.
  eapply framed_bind; [by apply framed_to|]. intros c' [-> _].
  eapply framed_bind; [by apply framed_merge_state|]. intros synced _.
  by apply framed_setitem.
Qed.

(** Up to its collective, [get_synced_metric_collection] either raises
    or gets as far as contributing a pickle. *)
Lemma get_synced_metric_collection_cases (world_size : Z) v st :
  (1 < world_size)%Z →
  (∃ st1 e, get_synced_metric_collection v world_size st = Ret (st1, inl e))
  ∨ (∃ st1 p,
       get_synced_metric_collection v world_size st
       = Gather AllGatherObject p
           (λ xs, bind (receive (replicate (Z.to_nat world_size) VNone) xs)
                       (merge_collections world_size) st1)).
Proof.
  intros Hws. unfold get_synced_metric_collection.
  rewrite (bind_Ret_inr _ _ _ _ _ (validate_large _ st Hws)).
  destruct (Z.eqb_spec world_size 1) as [|_]; [lia|].
  destruct (sync_metric_object_cases (B := pyval) world_size v st)
    as [(st1 & e & Heq)|(st1 & p & Heq)]; [left|right];
    eexists _, _; apply Heq.
Qed.

(** Given a dict of metrics, it prepares each of them in place, once per
    time the metric is listed, and contributes the pickle of the dict. *)
Lemma get_synced_metric_collection_mapping (world_size : Z) d mutable kls st :
  (1 < world_size)%Z →
  heap st !! d = Some (OMapping mutable kls) →
  Forall (λ l, ∃ s, heap st !! l = Some (OMetric s)) kls.*2 →
  ∃ h1 pitems,
    get_synced_metric_collection (VRef d) world_size st
    = Gather AllGatherObject (PkMapping mutable pitems)
        (λ xs, bind (receive (replicate (Z.to_nat world_size) VNone) xs)
                    (merge_collections world_size) (State h1 (log st)))
    ∧ length h1 = length (heap st)
    ∧ (∀ l, h1 !! l
            = called on_prepare_for_merge_state (occurrences l kls.*2)
                <$> heap st !! l)
    ∧ pickle h1 (VRef d) = Some (PkMapping mutable pitems).
Proof.
  intros Hws Hd Hkls. unfold get_synced_metric_collection.
  rewrite (bind_Ret_inr _ _ _ _ _ (validate_large _ st Hws)).
  destruct (Z.eqb_spec world_size 1) as [|_]; [lia|].
  destruct (for_list_in_place
              (λ m, _prepare_for_merge_state (VRef m)) id
              on_prepare_for_merge_state) with (ls := kls.*2) (st := st)
    as (h1 & bs & Heq & Hlen & Hl); [|done|].
  { intros l s st' Hs. eexists. unfold _prepare_for_merge_state.
    by rewrite (bind_Ret_inr _ _ _ _ _ (metric_attr_eq _ _ _ _ Hs)). }
  rewrite list_fmap_id in Heq.
  assert (h1 !! d = Some (OMapping mutable kls)) as Hd1.
  { by rewrite Hl, Hd. }
  assert (∃ pitems, mapM (pickle_item h1) kls = Some pitems) as [pitems Hp].
  { assert (Forall (λ kl, is_Some (pickle_item h1 kl)) kls) as Hall.
    { rewrite Forall_fmap in Hkls. eapply Forall_impl; [exact Hkls|].
      intros [k l] [s Hs]. unfold pickle_item. simpl in *.
      rewrite Hl, Hs. simpl. eauto. }
    clear -Hall. induction kls as [|kl kls IH]; [by exists []|].
    apply Forall_cons in Hall as [[ks Hks] Hall].
    destruct (IH Hall) as [pitems Hp]. exists (ks :: pitems).
    apply mapM_Some. constructor; [done|]. by apply mapM_Some. }
  assert (pickle h1 (VRef d) = Some (PkMapping mutable pitems)) as Hpickle.
  { unfold pickle. simpl. by rewrite Hd1, Hp. }
  exists h1, pitems. split_and!; [|done..].
  unfold _sync_metric_object.
  rewrite (bind_bind_Ret_inr _ _ _ st st (Some (OMapping mutable kls)))
    by (unfold lookup_obj; simpl; by rewrite Hd).
  cbv iota beta.
  erewrite (bind_bind_Ret_inr (bind _ _) _ _ st (State h1 (log st)) tt);
    [|by rewrite (bind_Ret_inr _ _ _ _ _ Heq)].
  unfold all_gather_object.
  erewrite bind_bind_Ret_inr; [reflexivity|].
  unfold dumps. cbn [heap]. by rewrite Hpickle.
Qed.

(** ** The collection, key by key *)

(** X11. A rank that holds a dict of metrics and is delivered rank 0's
    dict (with distinct keys) and, from every other rank, an object that
    holds a metric under each of rank 0's keys: [get_synced_metric_collection]
    returns a new dict with rank 0's keys in rank 0's order; under each
    key it holds a new metric with rank 0's state for the key, moved to
    the device of rank 0's own metric and merged with the other ranks'
    states for the key in rank order.  Keys that only other ranks hold
    are dropped. *)
Theorem get_synced_metric_collection_merges_by_key (world_size : Z)
    (d : loc) (mutable : bool) (kls : list (string * loc)) (st : state)
    (items0 : list (string * MState)) (others : list pickled)
    (result : list (string * MState)) :
  (1 < world_size)%Z →
  heap st !! d = Some (OMapping mutable kls) →
  Forall (λ l, ∃ s, heap st !! l = Some (OMetric s)) kls.*2 →
  length others = Z.to_nat world_size - 1 →
  NoDup items0.*1 →
  merged_collection items0 others = Some result →
  ∃ st' l,
    feed [PkMapping true items0 :: others]
         (get_synced_metric_collection (VRef d) world_size st)
    = Some ((st', inr (VRef l)), [])
    ∧ length (heap st) ≤ l
    ∧ pickle (heap st') (VRef l) = Some (PkMapping true result)
    ∧ log st' = log st.
Proof.
  intros Hws Hd Hkls Hlen Hnd Hres.
  destruct (get_synced_metric_collection_mapping world_size d mutable kls st)
    as (h1 & pitems & -> & Hlen1 & _ & _); [done..|].
  cbn [feed].
  destruct (receive_pickle (Z.to_nat world_size)
              (PkMapping true items0 :: others) (State h1 (log st)))
    as (ext & vs0 & Hrecv & Hvs0); [simpl; lia|].
  apply Forall2_cons_inv_l in Hvs0 as (v0 & vs & Hv0 & Hvs & ->).
  rewrite (bind_Ret_inr _ _ _ _ _ Hrecv). cbn [heap log] in *.
  rewrite (merge_collections_good world_size _ _ v0 vs items0 others result)
    by done.
  eexists _, _. split; [reflexivity|]. split_and!.
  - rewrite length_app. lia.
  - apply pickle_filling.
  - done.
Qed.

(** X12. The call goes through rank 0's keys in order and stops at the
    first key for which some other rank has no metric: when the first
    such rank, in rank order, delivered a dict without the key the call
    raises [KeyError] for the key, and when it delivered a metric the
    call raises [TypeError].  What was merged for the keys before it is
    not returned. *)
Theorem get_synced_metric_collection_key_mismatch (world_size : Z)
    (d : loc) (mutable : bool) (kls : list (string * loc)) (st : state)
    (done : list (string * MState)) (key : string) (s0 : MState)
    (more : list (string * MState))
    (good : list pickled) (bad : pickled) (rest : list pickled)
    (new : list (string * MState)) (ss : list MState) :
  (1 < world_size)%Z →
  heap st !! d = Some (OMapping mutable kls) →
  Forall (λ l, ∃ s, heap st !! l = Some (OMetric s)) kls.*2 →
  length (good ++ bad :: rest) = Z.to_nat world_size - 1 →
  NoDup (done ++ (key, s0) :: more).*1 →
  merged_collection done (good ++ bad :: rest) = Some new →
  mapM (state_under key) good = Some ss →
  state_under key bad = None →
  ∃ st',
    feed [PkMapping true (done ++ (key, s0) :: more) :: good ++ bad :: rest]
         (get_synced_metric_collection (VRef d) world_size st)
    = Some ((st',
             inl match bad with
                 | PkMapping _ _ => KeyError key
                 | PkMetric _ =>
                     TypeError "'Metric' object is not subscriptable"
                 end), []).
Proof.
  intros Hws Hd Hkls Hlen Hnd Hnew Hss Hnone.
  destruct (get_synced_metric_collection_mapping world_size d mutable kls st)
    as (h1 & pitems & -> & Hlen1 & _ & _); [done..|].
  cbn [feed].
  destruct (receive_pickle (Z.to_nat world_size)
              (PkMapping true (done ++ (key, s0) :: more)
                 :: good ++ bad :: rest)
              (State h1 (log st)))
    as (ext & vs0 & Hrecv & Hvs0); [simpl; lia|].
  apply Forall2_cons_inv_l in Hvs0 as (v0 & vs & Hv0 & Hvs & ->).
  rewrite (bind_Ret_inr _ _ _ _ _ Hrecv). cbn [heap log] in *.
  rewrite (merge_collections_raise world_size _ _ v0 vs done more key s0
             good bad rest ss new) by done.
  by eexists.
Qed.

(** X13. Whatever the collective delivers, the call changes the objects
    that were there only by running [_prepare_for_merge_state] on each
    metric of the dict it was given, in place and once per time the
    metric is listed; the dict itself, every other object and the log
    are as before, and what is returned is [None] or a new object. *)
Theorem get_synced_metric_collection_prepares_input (world_size : Z)
    (d : loc) (mutable : bool) (kls : list (string * loc)) (st : state)
    (xs : list pickled) :
  (1 < world_size)%Z →
  heap st !! d = Some (OMapping mutable kls) →
  Forall (λ l, ∃ s, heap st !! l = Some (OMetric s)) kls.*2 →
  ∃ st' r,
    feed [xs] (get_synced_metric_collection (VRef d) world_size st)
    = Some ((st', r), [])
    ∧ (∀ l, l < length (heap st) →
         heap st' !! l
         = called on_prepare_for_merge_state (occurrences l kls.*2)
             <$> heap st !! l)
    ∧ log st' = log st
    ∧ (∀ v, r = inr v → fresh (length (heap st)) v).
Proof.
  intros Hws Hd Hkls.
  destruct (get_synced_metric_collection_mapping world_size d mutable kls st)
    as (h1 & pitems & -> & Hlen1 & Hl1 & _); [done..|].
  cbn [feed].
  match goal with |- context [bind ?rc ?k (State h1 (log st))] =>
    assert (framed (length h1) (bind rc k) (fresh (length h1))) as Hframed
  end.
  { eapply framed_bind.
    - apply framed_receive, Forall_replicate. done.
    - intros gathered _. apply framed_merge_collections. }
  destruct (Hframed (State h1 (log st)))
    as (st' & r & Heq & Htake & Hlen & Hlog & Hr); [done|].
  cbn [heap log] in *. exists st', r. rewrite Heq. split_and!; [done| |done|].
  - intros l Hlt. rewrite <- Hl1.
    rewrite <- (lookup_take_lt (heap st') (length h1)) by lia.
    rewrite Htake. apply lookup_take_lt. lia.
  - intros v ->. by rewrite <- Hlen1.
Qed.

(** ** The wrappers of the collection *)

(** Reading every metric of a dict goes with reading every state of its
    pickle. *)
Lemma for_items_eq {R} (method : pyval → M R) (f : MState → R) :
  (∀ l s st, heap st !! l = Some (OMetric s) →
             method (VRef l) st = Ret (st, inr (f s))) →
  ∀ st v mutable (result : list (string * MState)),
    pickle (heap st) v = Some (PkMapping mutable result) →
    bind (items v)
         (λ kms, for_list (λ km, bind (method (VRef km.2))
                                      (λ r, ret (km.1, r))) kms) st
    = Ret (st, inr ((λ ks, (ks.1, f ks.2)) <$> result)).
Proof.
  intros Hmethod st v mutable result Hp.
  apply pickle_mapping_inv in Hp as (l & kls & -> & Hl & Hkls).
  rewrite (bind_Ret_inr _ _ st st kls)
    by (unfold items, bind, lookup_obj; simpl; by rewrite Hl).
  clear Hl. induction Hkls as [|[k b] [k' s] kls result [Hk Hb] _ IH];
    [done|].
  simpl in *. subst k'.
  rewrite (bind_bind_Ret_inr _ _ _ _ _ _ (Hmethod _ _ _ Hb)).
  rewrite (bind_Ret_inr _ _ st st (k, f s)) by done.
  by rewrite (bind_Ret_inr _ _ _ _ _ IH).
Qed.

(** X14. In the setting of the key-by-key merge,
    [sync_and_compute_collection] returns the [compute] result of every
    synced metric and [get_synced_state_dict_collection] its
    [state_dict], under rank 0's keys and in rank 0's order. *)
Theorem collection_wrappers_read_each_synced_metric (world_size : Z)
    (d : loc) (mutable : bool) (kls : list (string * loc)) (st : state)
    (items0 : list (string * MState)) (others : list pickled)
    (result : list (string * MState)) :
  (1 < world_size)%Z →
  heap st !! d = Some (OMapping mutable kls) →
  Forall (λ l, ∃ s, heap st !! l = Some (OMetric s)) kls.*2 →
  length others = Z.to_nat world_size - 1 →
  NoDup items0.*1 →
  merged_collection items0 others = Some result →
  ∃ st',
    feed [PkMapping true items0 :: others]
         (sync_and_compute_collection (VRef d) world_size st)
    = Some ((st', inr ((λ ks, (ks.1, on_compute ks.2)) <$> result)), [])
    ∧ feed [PkMapping true items0 :: others]
           (get_synced_state_dict_collection (VRef d) world_size st)
      = Some ((st', inr ((λ ks, (ks.1, on_state_dict ks.2)) <$> result)), []).
Proof.
  intros Hws Hd Hkls Hlen Hnd Hres.
  destruct (get_synced_metric_collection_mapping world_size d mutable kls st)
    as (h1 & pitems & Hprog & Hlen1 & _ & _); [done..|].
  destruct (receive_pickle (Z.to_nat world_size)
              (PkMapping true items0 :: others) (State h1 (log st)))
    as (ext & vs0 & Hrecv & Hvs0); [simpl; lia|].
  apply Forall2_cons_inv_l in Hvs0 as (v0 & vs & Hv0 & Hvs & ->).
  cbn [heap log] in *.
  pose proof (merge_collections_good world_size _ (log st) v0 vs items0
                others result Hv0 Hvs Hlen Hnd Hres) as Hmerge.
  eexists. split.
  - unfold sync_and_compute_collection, bind at 1. rewrite Hprog.
    cbn [cbind feed].
    change (cbind (bind ?R ?F ?s) (resume ?G)) with (bind (bind R F) G s).
    rewrite (bind_bind_Ret_inr _ _ _ _ _ _ Hrecv).
    rewrite (bind_Ret_inr _ _ _ _ _ Hmerge).
    rewrite (for_items_eq compute on_compute compute_eq _ _ true result)
      by apply pickle_filling.
    reflexivity.
  - unfold get_synced_state_dict_collection, bind at 1. rewrite Hprog.
    cbn [cbind feed].
    change (cbind (bind ?R ?F ?s) (resume ?G)) with (bind (bind R F) G s).
    rewrite (bind_bind_Ret_inr _ _ _ _ _ _ Hrecv).
    rewrite (bind_Ret_inr _ _ _ _ _ Hmerge).
    rewrite (for_items_eq state_dict on_state_dict state_dict_eq _ _ true
               result) by apply pickle_filling.
    reflexivity.
Qed.

Lemma receive_not_a_dict n xs st :
  0 < n →
  (∀ items, xs !! 0 ≠ Some (PkMapping true items)) →
  ∃ st' gathered v0,
    receive (replicate n VNone) xs st = Ret (st', inr gathered)
    ∧ gathered !! 0 = Some v0
    ∧ ∀ items, deref (heap st') v0 ≠ Some (OMapping true items).
Proof.
  intros Hn Hno.
  destruct (receive_head n xs st Hn) as (st' & gathered & v0 & Heq & Hv0 & Hhead).
  exists st', gathered, v0. split_and!; [done..|].
  intros kls Hderef. destruct (xs !! 0) as [p|] eqn:Hp.
  - destruct Hhead as (o & Ho & Hl). simplify_eq.
    destruct p as [|mutable items]; simpl in Hl; [done|].
    destruct Hl as [-> _]. by destruct (Hno items).
  - by subst v0.
Qed.

(** X15. When what rank 0 delivered is no [MutableMapping],
    [get_synced_metric_collection] returns [None], and the two wrappers
    end in the [AttributeError] of [None.items()]: they raise in every
    case, before the collective or after it. *)
Theorem collection_wrappers_raise_on_none (world_size : Z) (v : pyval)
    (st : state) (xs : list pickled) :
  (1 < world_size)%Z →
  (∀ items, xs !! 0 ≠ Some (PkMapping true items)) →
  ∃ st' e rest,
    feed [xs] (sync_and_compute_collection v world_size st)
    = Some ((st', inl e), rest)
    ∧ feed [xs] (get_synced_state_dict_collection v world_size st)
      = Some ((st', inl e), rest)
    ∧ (rest = [xs]
       ∨ (rest = []
          ∧ e = AttributeError "'NoneType' object has no attribute 'items'")).
Proof.
  intros Hws Hno.
  destruct (get_synced_metric_collection_cases world_size v st Hws)
    as [(st1 & e & Hprog)|(st1 & p & Hprog)].
  - exists st1, e, [xs].
    unfold sync_and_compute_collection, get_synced_state_dict_collection.
    rewrite !(bind_Ret_inl _ _ _ _ _ Hprog). split_and!; [done..|by left].
  - destruct (receive_not_a_dict (Z.to_nat world_size) xs st1)
      as (st2 & gathered & v0 & Hrecv & Hv0 & Hderef); [lia|done|].
    pose proof (merge_collections_none world_size gathered v0 st2 Hv0 Hderef)
      as Hmerge.
    exists st2, (AttributeError "'NoneType' object has no attribute 'items'"), [].
    split_and!; [| |by right].
    + unfold sync_and_compute_collection, bind at 1. rewrite Hprog.
      cbn [cbind feed].
      change (cbind (bind ?R ?F ?s) (resume ?G)) with (bind (bind R F) G s).
      rewrite (bind_bind_Ret_inr _ _ _ _ _ _ Hrecv).
      by rewrite (bind_Ret_inr _ _ _ _ _ Hmerge).
    + unfold get_synced_state_dict_collection, bind at 1. rewrite Hprog.
      cbn [cbind feed].
      change (cbind (bind ?R ?F ?s) (resume ?G)) with (bind (bind R F) G s).
      rewrite (bind_bind_Ret_inr _ _ _ _ _ _ Hrecv).
      by rewrite (bind_Ret_inr _ _ _ _ _ Hmerge).
Qed.

(** ** World sizes below 2 *)

Lemma validate_small (world_size : Z) st :
  (world_size < 1)%Z →
  ∃ msg, _validate_rank_and_world_size world_size st
         = Ret (st, inl (RuntimeError msg)).
Proof.
  intros. unfold _validate_rank_and_world_size, bind, raise, ret.
  destruct (Z.eqb_spec world_size 1); [lia|].
  destruct (Z.eqb_spec world_size (-1)); simpl; [by eexists|].
  destruct (Z.ltb_spec world_size 1); [by eexists|lia].
Qed.

(** X16. With a world size below 1 every entry point that synchronises
    raises the [RuntimeError] of the validation before it looks at its
    argument: no hook is run, nothing is logged, no collective is
    called, whatever was passed. *)
Theorem invalid_world_size_stops_every_entry_point (world_size : Z)
    (v : pyval) (st : state) :
  (world_size < 1)%Z →
  ∃ msg,
    get_synced_metric v world_size st = Ret (st, inl (RuntimeError msg))
    ∧ get_synced_metric_collection v world_size st
      = Ret (st, inl (RuntimeError msg))
    ∧ sync_and_compute v world_size st = Ret (st, inl (RuntimeError msg))
    ∧ sync_and_compute_collection v world_size st
      = Ret (st, inl (RuntimeError msg))
    ∧ get_synced_state_dict_collection v world_size st
      = Ret (st, inl (RuntimeError msg)).
Proof.
  intros Hws. destruct (validate_small world_size st Hws) as [msg Hmsg].
  exists msg.
  unfold sync_and_compute, sync_and_compute_collection,
    get_synced_state_dict_collection, get_synced_metric,
    get_synced_metric_collection.
  by rewrite !(bind_bind_Ret_inl _ _ _ _ _ _ Hmsg),
    !(bind_Ret_inl _ _ _ _ _ Hmsg).
Qed.

(** X17. With world size 1 nothing is synchronised and nothing is
    prepared: [sync_and_compute] computes on the metric it was given as
    it is, and the collection wrappers read the metrics of the dict they
    were given, in its order; one warning is logged, the store is
    unchanged and no collective is called. *)
Theorem world_size_one_wrappers_read_the_input (m : loc) (s : MState)
    (d : pyval) (mutable : bool) (items : list (string * MState))
    (st : state) :
  heap st !! m = Some (OMetric s) →
  pickle (heap st) d = Some (PkMapping mutable items) →
  sync_and_compute (VRef m) 1 st
  = Ret (State (heap st) (log st ++ [LogWarning world_size_one_msg]),
         inr (on_compute s))
  ∧ sync_and_compute_collection d 1 st
    = Ret (State (heap st) (log st ++ [LogWarning world_size_one_msg]),
           inr ((λ ks, (ks.1, on_compute ks.2)) <$> items))
  ∧ get_synced_state_dict_collection d 1 st
    = Ret (State (heap st) (log st ++ [LogWarning world_size_one_msg]),
           inr ((λ ks, (ks.1, on_state_dict ks.2)) <$> items)).
Proof.
  intros Hm Hd.
  set (st1 := State (heap st) (log st ++ [LogWarning world_size_one_msg])).
  split_and!.
  - unfold sync_and_compute.
    rewrite (bind_Ret_inr _ _ st st1 (VRef m)) by done.
    by rewrite (bind_Ret_inr _ _ _ _ _ (compute_eq _ _ st1 Hm)).
  - unfold sync_and_compute_collection.
    rewrite (bind_Ret_inr _ _ st st1 d) by done.
    by rewrite (for_items_eq compute on_compute compute_eq st1 d mutable items).
  - unfold get_synced_state_dict_collection.
    rewrite (bind_Ret_inr _ _ st st1 d) by done.
    by rewrite (for_items_eq state_dict on_state_dict state_dict_eq st1 d
                  mutable items).
Qed.

(** ** Arguments that cannot be synchronised *)

(** X18. For a world size above 1, an argument that is neither a metric
    nor a mapping ([None], a list of metrics) is asked for its [values]:
    [get_synced_metric] and [get_synced_metric_collection] raise that
    [AttributeError] with the store and the log untouched, and the rank
    never enters the collective. *)
Theorem sync_rejects_other_objects (world_size : Z) (v : pyval)
    (st : state) :
  (1 < world_size)%Z →
  (∀ s, deref (heap st) v ≠ Some (OMetric s)) →
  (∀ mutable kls, deref (heap st) v ≠ Some (OMapping mutable kls)) →
  get_synced_metric v world_size st
  = Ret (st, inl (no_attribute (deref (heap st) v) "values"))
  ∧ get_synced_metric_collection v world_size st
    = Ret (st, inl (no_attribute (deref (heap st) v) "values")).
Proof.
  intros Hws Hmetric Hmapping.
  assert (∀ B (f : list pyval → M B),
            bind (_sync_metric_object v world_size) f st
            = Ret (st, inl (no_attribute (deref (heap st) v) "values")))
    as Hsync.
  { intros B f. unfold _sync_metric_object.
    rewrite (bind_bind_Ret_inr _ _ _ st st (deref (heap st) v)) by done.
    destruct (deref (heap st) v) as [[s|mutable kls|ms]|]; try done.
    - by destruct (Hmetric s).
    - by destruct (Hmapping mutable kls). }
  unfold get_synced_metric, get_synced_metric_collection.
  rewrite !(bind_Ret_inr _ _ _ _ _ (validate_large _ st Hws)).
  destruct (Z.eqb_spec world_size 1) as [|_]; [lia|].
  by rewrite !Hsync.
Qed.

(** X19. Given a dict one of whose values is no metric,
    [get_synced_metric_collection] raises the [AttributeError] of that
    value's missing [_prepare_for_merge_state] and never enters the
    collective; the metrics that come before it in the dict have been
    prepared already and stay so. *)
Theorem get_synced_metric_collection_stops_at_non_metric (world_size : Z)
    (d : loc) (mutable : bool) (kls : list (string * loc))
    (good : list loc) (bad : loc) (rest : list loc) (st : state) :
  (1 < world_size)%Z →
  heap st !! d = Some (OMapping mutable kls) →
  kls.*2 = good ++ bad :: rest →
  Forall (λ l, ∃ s, heap st !! l = Some (OMetric s)) good →
  (∀ s, heap st !! bad ≠ Some (OMetric s)) →
  ∃ h',
    get_synced_metric_collection (VRef d) world_size st
    = Ret (State h' (log st),
           inl (no_attribute (heap st !! bad) "_prepare_for_merge_state"))
    ∧ length h' = length (heap st)
    ∧ ∀ l, h' !! l
           = called on_prepare_for_merge_state (occurrences l good)
               <$> heap st !! l.
Proof.
  intros Hws Hd Hvalues Hgood Hbad.
  destruct (for_list_in_place_raise
              (λ m, _prepare_for_merge_state (VRef m)) id
              on_prepare_for_merge_state "_prepare_for_merge_state")
    with (good := good) (bad := bad) (rest := rest) (st := st)
    as (h' & Heq & Hlen & Hl); [| |done|done|].
  { intros l s st' Hs. eexists. unfold _prepare_for_merge_state.
    by rewrite (bind_Ret_inr _ _ _ _ _ (metric_attr_eq _ _ _ _ Hs)). }
  { intros l st' Hno. unfold _prepare_for_merge_state.
    by rewrite (bind_Ret_inl _ _ _ _ _ (metric_attr_raise _ _ _ Hno)). }
  rewrite list_fmap_id, <- Hvalues in Heq.
  exists h'. split_and!; [|done..].
  unfold get_synced_metric_collection.
  rewrite (bind_Ret_inr _ _ _ _ _ (validate_large _ st Hws)).
  destruct (Z.eqb_spec world_size 1) as [|_]; [lia|].
  unfold _sync_metric_object.
  rewrite (bind_bind_Ret_inr _ _ _ st st (Some (OMapping mutable kls)))
    by (unfold lookup_obj; simpl; by rewrite Hd).
  cbv iota beta.
  erewrite bind_bind_Ret_inl; [reflexivity|].
  by rewrite (bind_Ret_inl _ _ _ _ _ Heq).
Qed.

End WithMetric.

(** ** The theorems at the list-state metric *)

#[local] Existing Instance CatMetric.
#[local] Existing Instance CatOps.

Lemma classwise_converter_last_label_wins_witness :
  ∃ d, classwise_converter (Slices [10; 20; 30]%Z) "f1"
         (Some ["cat"; "dog"; "cat"])
       = inr d
       ∧ dict_get "f1_cat" d = Some 30%Z
       ∧ dict_get "f1_dog" d = Some 20%Z.
Proof.
  destruct (classwise_converter_last_label_wins [10; 20; 30]%Z "f1"
              ["cat"; "dog"; "cat"] eq_refl) as (d & Hd & _ & _ & Hlast).
  exists d. split_and!; [exact Hd| |].
  - apply (Hlast 2 "cat" eq_refl). intros [|[|[|j]]] Hj; simpl; try lia; done.
  - apply (Hlast 1 "dog" eq_refl). intros [|[|[|j]]] Hj; simpl; try lia; done.
Defined.

Lemma to_device_moves_each_witness :
  ∃ h',
    to_device (VRef 2) (Cuda 1) cat_objects
    = Ret (State h' [], inr (VRef 2))
    ∧ h' !! 0 = Some (OMetric (CatState (Cuda 1) [[1; 2]; [3]]%Z))
    ∧ h' !! 2 = Some (OList [0; 1; 0]).
Proof.
  destruct (to_device_moves_each (MC := CatMetric) 2 [0; 1; 0] (Cuda 1)
              cat_objects eq_refl
              ltac:(repeat constructor; by eexists))
    as (h' & Heq & _ & Hl).
  exists h'. split_and!; [exact Heq|by rewrite Hl..].
Defined.

Lemma reset_metrics_resets_each_witness :
  ∃ h',
    reset_metrics (VRef 2) cat_objects = Ret (State h' [], inr (VRef 2))
    ∧ h' !! 0 = Some (OMetric (CatState Cpu []))
    ∧ h' !! 1 = Some (OMetric (CatState (Cuda 0) [])).
Proof.
  destruct (reset_metrics_resets_each (MC := CatMetric) (MO := CatOps)
              2 [0; 1; 0] cat_objects eq_refl
              ltac:(repeat constructor; by eexists))
    as (h' & Heq & _ & Hl).
  exists h'. split_and!; [exact Heq|by rewrite Hl..].
Defined.

Lemma loops_stop_at_first_non_metric_witness :
  ∃ h',
    reset_metrics (VRef 4) cat_objects
    = Ret (State h' [],
           inl (AttributeError "'dict' object has no attribute 'reset'"))
    ∧ h' !! 0 = Some (OMetric (CatState Cpu []))
    ∧ h' !! 1 = Some (OMetric cat_other).
Proof.
  destruct (loops_stop_at_first_non_metric (MC := CatMetric) (MO := CatOps)
              4 [0] 3 [1] Cpu cat_objects eq_refl)
    as [(h' & Heq & Hl) _].
  - repeat constructor; by eexists.
  - right; left. by eexists.
  - exists h'. split_and!; [exact Heq|by rewrite Hl..].
Defined.

Lemma loops_over_a_dict_witness :
  reset_metrics (VRef 3) cat_objects
  = Ret (cat_objects,
         inl (AttributeError "'str' object has no attribute 'reset'"))
  ∧ clone_metrics (VRef 3) cat_objects
    = Ret (cat_objects, inr [EStr "a"; EStr "b"]).
Proof.
  destruct (loops_over_a_dict (MC := CatMetric) (MO := CatOps) 3 true
              [("a", 0); ("b", 1)] Cpu cat_objects eq_refl)
    as (Hreset & _ & Hclone).
  split; [exact Hreset|exact Hclone].
Defined.

Lemma clone_metrics_new_objects_witness :
  clone_metrics (VRef 2) cat_objects
  = Ret (State (heap cat_objects
                  ++ [OMetric cat_input; OMetric cat_other; OMetric cat_input])
               [],
         inr [EVal (VRef 5); EVal (VRef 6); EVal (VRef 7)]).
Proof.
  refine (clone_metrics_new_objects (MC := CatMetric) 2 [0; 1; 0]
            [cat_input; cat_other; cat_input] cat_objects
            eq_refl _).
  repeat constructor.
Defined.

Lemma get_synced_metric_lock_step_witness :
  run_world [get_synced_metric (VRef 0) 2 cat_store;
             get_synced_metric (VRef 0) 2 cat_store_1]
  = Some
      [(State [OMetric (CatState Cpu [[1; 2; 3]]%Z);
               OMetric (CatState Cpu [[1; 2; 3]]%Z);
               OMetric (CatState (Cuda 0) [[9]]%Z);
               OMetric (CatState Cpu [[1; 2; 3]; [9]]%Z)] [],
        inr (VRef 3));
       (State [OMetric (CatState (Cuda 0) [[9]]%Z);
               OMetric (CatState Cpu [[1; 2; 3]]%Z);
               OMetric (CatState (Cuda 0) [[9]]%Z);
               OMetric (CatState (Cuda 0) [[1; 2; 3]; [9]]%Z)] [],
        inr (VRef 3))].
Proof.
  refine (get_synced_metric_lock_step (MC := CatMetric)
            (Rank cat_store 0 cat_input) [Rank cat_store_1 0 cat_other] _ _).
  - simpl. lia.
  - repeat constructor.
Defined.

Lemma sync_and_compute_lock_step_witness :
  ∃ s0 s1,
    run_world [sync_and_compute (VRef 0) 2 cat_store;
               sync_and_compute (VRef 0) 2 cat_store_1]
    = Some [(s0, inr [1; 2; 3; 9]%Z); (s1, inr [1; 2; 3; 9]%Z)].
Proof.
  eexists _, _.
  refine (sync_and_compute_lock_step (MC := CatMetric) (MO := CatOps)
            (Rank cat_store 0 cat_input) [Rank cat_store_1 0 cat_other] _ _).
  - simpl. lia.
  - repeat constructor.
Defined.

Lemma get_synced_metric_collection_merges_by_key_witness :
  ∃ st' l,
    feed [cat_dict_answer]
         (get_synced_metric_collection (VRef 3) 2 cat_objects)
    = Some ((st', inr (VRef l)), [])
    ∧ 5 ≤ l
    ∧ pickle (heap st') (VRef l)
      = Some (PkMapping (MC := CatMetric) true
                [("a", CatState Cpu [[1; 2; 3]; [5]]%Z);
                 ("b", CatState (Cuda 0) [[9]; [7]]%Z)])
    ∧ log st' = [].
Proof.
  exact (get_synced_metric_collection_merges_by_key (MC := CatMetric) 2 3
           true [("a", 0); ("b", 1)] cat_objects cat_rank_0 [cat_rank_1]
           _ ltac:(lia) eq_refl
           ltac:(repeat constructor; by eexists) eq_refl
           ltac:(apply (bool_decide_unpack _); by vm_compute) eq_refl).
Defined.

Lemma get_synced_metric_collection_key_mismatch_witness :
  ∃ st',
    feed [cat_late_answer]
         (get_synced_metric_collection (VRef 3) 2 cat_objects)
    = Some ((st', inl (KeyError "b")), []).
Proof.
  exact (get_synced_metric_collection_key_mismatch (MC := CatMetric) 2 3
           true [("a", 0); ("b", 1)] cat_objects
           [("a", cat_prepare cat_input)] "b" cat_other [] []
           cat_rank_1_short [] [("a", CatState Cpu [[1; 2; 3]; [5]]%Z)] []
           ltac:(lia) eq_refl
           ltac:(repeat constructor; by eexists) eq_refl
           ltac:(apply (bool_decide_unpack _); by vm_compute)
           eq_refl eq_refl eq_refl).
Defined.

Lemma get_synced_metric_collection_prepares_input_witness :
  ∃ st' r,
    feed [cat_answer] (get_synced_metric_collection (VRef 3) 2 cat_objects)
    = Some ((st', r), [])
    ∧ heap st' !! 0 = Some (OMetric (CatState Cpu [[1; 2; 3]]%Z))
    ∧ heap st' !! 3 = Some (OMapping true [("a", 0); ("b", 1)]).
Proof.
  destruct (get_synced_metric_collection_prepares_input (MC := CatMetric)
              2 3 true [("a", 0); ("b", 1)] cat_objects cat_answer
              ltac:(lia) eq_refl
           ltac:(repeat constructor; by eexists))
    as (st' & r & Heq & Hl & _).
  exists st', r. split_and!; [exact Heq| |].
  - rewrite (Hl 0) by (simpl; lia). reflexivity.
  - rewrite (Hl 3) by (simpl; lia). reflexivity.
Defined.

Lemma collection_wrappers_read_each_synced_metric_witness :
  ∃ st',
    feed [cat_dict_answer]
         (sync_and_compute_collection (VRef 3) 2 cat_objects)
    = Some ((st', inr [("a", [1; 2; 3; 5]%Z); ("b", [9; 7]%Z)]), []).
Proof.
  destruct (collection_wrappers_read_each_synced_metric (MC := CatMetric)
              (MO := CatOps) 2 3
              true [("a", 0); ("b", 1)] cat_objects cat_rank_0 [cat_rank_1]
              _ ltac:(lia) eq_refl
           ltac:(repeat constructor; by eexists) eq_refl
              ltac:(apply (bool_decide_unpack _); by vm_compute) eq_refl)
    as (st' & Hcompute & _).
  exists st'. exact Hcompute.
Defined.

Lemma collection_wrappers_raise_on_none_witness :
  ∃ st' e rest,
    feed [cat_answer] (sync_and_compute_collection (VRef 3) 2 cat_objects)
    = Some ((st', inl e), rest)
    ∧ feed [cat_answer]
           (get_synced_state_dict_collection (VRef 3) 2 cat_objects)
      = Some ((st', inl e), rest)
    ∧ (rest = [cat_answer]
       ∨ (rest = []
          ∧ e = AttributeError "'NoneType' object has no attribute 'items'")).
Proof.
  refine (collection_wrappers_raise_on_none (MC := CatMetric) (MO := CatOps)
            2 (VRef 3) cat_objects cat_answer ltac:(lia) _).
  intros items. simpl. discriminate.
Defined.

Lemma invalid_world_size_stops_every_entry_point_witness :
  ∃ msg,
    get_synced_metric (VRef 3) 0 cat_objects
    = Ret (cat_objects, inl (RuntimeError msg))
    ∧ sync_and_compute_collection (VRef 3) 0 cat_objects
      = Ret (cat_objects, inl (RuntimeError msg)).
Proof.
  destruct (invalid_world_size_stops_every_entry_point (MC := CatMetric)
              (MO := CatOps) 0 (VRef 3) cat_objects ltac:(lia))
    as (msg & Hmetric & _ & _ & Hcollection & _).
  exists msg. split; [exact Hmetric|exact Hcollection].
Defined.

Lemma world_size_one_wrappers_read_the_input_witness :
  sync_and_compute (VRef 0) 1 cat_objects
  = Ret (State (heap cat_objects) [LogWarning world_size_one_msg],
         inr [1; 2; 3]%Z)
  ∧ sync_and_compute_collection (VRef 3) 1 cat_objects
    = Ret (State (heap cat_objects) [LogWarning world_size_one_msg],
           inr [("a", [1; 2; 3]%Z); ("b", [9]%Z)]).
Proof.
  destruct (world_size_one_wrappers_read_the_input (MC := CatMetric)
              (MO := CatOps) 0 cat_input (VRef 3) true
              [("a", cat_input); ("b", cat_other)] cat_objects
              eq_refl eq_refl) as (Hcompute & Hcollection & _).
  split; [exact Hcompute|exact Hcollection].
Defined.

Lemma sync_rejects_other_objects_witness :
  get_synced_metric (VRef 2) 2 cat_objects
  = Ret (cat_objects,
         inl (AttributeError "'list' object has no attribute 'values'"))
  ∧ get_synced_metric_collection VNone 2 cat_objects
    = Ret (cat_objects,
           inl (AttributeError "'NoneType' object has no attribute 'values'")).
Proof.
  split.
  - refine (proj1 (sync_rejects_other_objects (MC := CatMetric) 2 (VRef 2)
                     cat_objects ltac:(lia) _ _)); by intros.
  - refine (proj2 (sync_rejects_other_objects (MC := CatMetric) 2 VNone
                     cat_objects ltac:(lia) _ _)); by intros.
Defined.

Lemma get_synced_metric_collection_stops_at_non_metric_witness :
  ∃ h',
    get_synced_metric_collection (VRef 2) 2 cat_bad_dict
    = Ret (State h' [],
           inl (AttributeError
                  "'list' object has no attribute '_prepare_for_merge_state'"))
    ∧ h' !! 0 = Some (OMetric (CatState Cpu [[1; 2; 3]]%Z)).
Proof.
  destruct (get_synced_metric_collection_stops_at_non_metric
              (MC := CatMetric) 2 2 true [("a", 0); ("b", 1); ("c", 0)]
              [0] 1 [0] cat_bad_dict
              ltac:(lia) eq_refl eq_refl
              ltac:(repeat constructor; by eexists)
              ltac:(by intros))
    as (h' & Heq & _ & Hl).
  exists h'. split; [exact Heq|by rewrite Hl].
Defined.

End ToolkitRestFacts.
